(** * Deadlock detection and resolution on a resource-allocation table

    A shallow embedding of [app.py]: the process table [processes] (a Python
    dict, kept in insertion order), the cycle detector [detect_deadlock], the
    victim selection of [resolve] and the request handlers, followed by the
    properties proved about them.

    Names are strings; [String.length] stands for Python's [len], one
    character of the name for one [ascii]. *)

From Stdlib Require Import List String Ascii Bool Arith Lia.
From Stdlib Require Import Relations Permutation.
Import ListNotations.
Open Scope string_scope.
Open Scope list_scope.

(** ** Python dictionaries with string keys

    A dict iterates in insertion order; assigning to a key that is present
    keeps its position, assigning to a new key appends it. *)

Module Dict.

Definition t (V : Type) : Type := list (string * V).

Definition empty {V} : t V := [].

Definition keys {V} (d : t V) : list string := map fst d.

Definition items {V} (d : t V) : list (string * V) := d.

Definition is_empty {V} (d : t V) : bool :=
  match d with [] => true | _ :: _ => false end.

Fixpoint get {V} (k : string) (d : t V) : option V :=
  match d with
  | [] => None
  | (k', v) :: d' => if String.eqb k' k then Some v else get k d'
  end.

Fixpoint set {V} (k : string) (v : V) (d : t V) : t V :=
  match d with
  | [] => [(k, v)]
  | (k', v') :: d' =>
      if String.eqb k' k then (k', v) :: d' else (k', v') :: set k v d'
  end.

Fixpoint del {V} (k : string) (d : t V) : t V :=
  match d with
  | [] => []
  | (k', v') :: d' => if String.eqb k' k then d' else (k', v') :: del k d'
  end.

Definition mem {V} (k : string) (d : t V) : bool :=
  match get k d with Some _ => true | None => false end.

(** The keys of a dict are pairwise distinct. *)
Definition wf {V} (d : t V) : Prop := NoDup (keys d).

End Dict.

(** ** The process table *)

Record details : Type := mkDetails { holds : string; requests : string }.

Definition store : Type := Dict.t details.

(** ** Exceptions and the handler monad

    Every handler reads and writes the global [processes]; a Python exception
    leaves the table as it was at the point of the raise. *)

Inductive exn : Type :=
| KeyError (key : string)
| ValueError (msg : string)
| UpstreamFailure (msg : string)
| AttributeError (msg : string)
| HTTPException (code : nat) (msg : string).

Definition str_of_exn (e : exn) : string :=
  match e with
  | KeyError key => "'" ++ key ++ "'"
  | ValueError msg => msg
  | UpstreamFailure msg => msg
  | AttributeError msg => msg
  | HTTPException _ msg => msg
  end.

Inductive result (A : Type) : Type :=
| Ok (a : A)
| Raise (e : exn).
Arguments Ok {A} a.
Arguments Raise {A} e.

Definition M (A : Type) : Type := store -> result A * store.

Definition ret {A} (a : A) : M A := fun s => (Ok a, s).

Definition bind {A B} (m : M A) (k : A -> M B) : M B :=
  fun s =>
    match m s with
    | (Ok a, s') => k a s'
    | (Raise e, s') => (Raise e, s')
    end.

Definition raise {A} (e : exn) : M A := fun s => (Raise e, s).

Definition try_except {A} (m : M A) (handler : exn -> M A) : M A :=
  fun s =>
    match m s with
    | (Ok a, s') => (Ok a, s')
    | (Raise e, s') => handler e s'
    end.

Definition get_processes : M store := fun s => (Ok s, s).

Definition put_processes (s' : store) : M unit := fun _ => (Ok tt, s').

Declare Scope py_scope.
Delimit Scope py_scope with py.
Notation "x <- m ;; k" := (bind m (fun x => k))
  (at level 100, m at next level, right associativity) : py_scope.
Notation "m ;;; k" := (bind m (fun _ => k))
  (at level 100, right associativity) : py_scope.
Open Scope py_scope.

(** [processes[k]] and [del processes[k]] raise [KeyError] on a missing key. *)
Definition getitem (k : string) : M details :=
  processes <- get_processes ;;
  match Dict.get k processes with
  | Some d => ret d
  | None => raise (KeyError k)
  end.

Definition setitem (k : string) (v : details) : M unit :=
  processes <- get_processes ;;
  put_processes (Dict.set k v processes).

Definition delitem (k : string) : M unit :=
  processes <- get_processes ;;
  if Dict.mem k processes then put_processes (Dict.del k processes)
  else raise (KeyError k).

(** ** Directed graphs

    The part of the graph library ([networkx], imported as [nx]) that
    [detect_deadlock] uses, after the library's documentation. A [DiGraph]
    has its nodes and edges in insertion order, without repetition:
    [add_edge] adds its end points as nodes when they are new, and a second
    [add_edge] of the same pair changes nothing. Nodes are compared by
    value, so a process and a resource of the same name are one node. *)

Module DiGraph.

Abbreviation node := string.

Record t : Type := mk { nodes : list node; edges : list (node * node) }.

Definition empty : t := mk [] [].

Definition edge_eqb (e1 e2 : node * node) : bool :=
  String.eqb (fst e1) (fst e2) && String.eqb (snd e1) (snd e2).

Definition has_node (g : t) (u : node) : bool :=
  existsb (String.eqb u) (nodes g).

Definition has_edge (g : t) (u v : node) : bool :=
  existsb (edge_eqb (u, v)) (edges g).

Definition add_node (u : node) (g : t) : t :=
  if has_node g u then g else mk (nodes g ++ [u]) (edges g).

Definition add_edge (u v : node) (g : t) : t :=
  let g' := add_node v (add_node u g) in
  if has_edge g' u v then g' else mk (nodes g') (edges g' ++ [(u, v)]).

Definition successors (g : t) (u : node) : list node :=
  map snd (filter (fun e => String.eqb (fst e) u) (edges g)).

(** [simple_cycles] lists the simple cycles (elementary circuits) of the
    graph: closed paths on which no node appears twice, a self-loop being
    the cycle of length one. Each cycle is listed once, from its first node
    in node order: the search from [root] walks only through nodes that come
    after [root] ([allowed]) and are not yet on the path. [path] is the
    current path, last node first. [fuel] bounds the length of the path; one
    more than the number of allowed nodes never runs out. *)
Fixpoint cycles_from (fuel : nat) (g : t) (root : node) (allowed : list node)
    (path : list node) (cur : node) : list (list node) :=
  match fuel with
  | O => []
  | S fuel' =>
      flat_map
        (fun w =>
           if String.eqb w root then [rev path]
           else if existsb (String.eqb w) allowed
                   && negb (existsb (String.eqb w) path)
                then cycles_from fuel' g root allowed (w :: path) w
                else [])
        (successors g cur)
  end.

Fixpoint simple_cycles_in (g : t) (ns : list node) : list (list node) :=
  match ns with
  | [] => []
  | root :: rest =>
      cycles_from (S (List.length rest)) g root rest [root] root
        ++ simple_cycles_in g rest
  end.

Definition simple_cycles (g : t) : list (list node) :=
  simple_cycles_in g (nodes g).

End DiGraph.

(** ** [detect_deadlock]

    The [except NetworkXNoCycle] clause of the source guards a call that
    does not raise: [simple_cycles] returns the (possibly empty) list. *)

Definition build_graph (processes : store) : DiGraph.t :=
  fold_left
    (fun graph '(process, d) =>
       DiGraph.add_edge (holds d) process
         (DiGraph.add_edge process (requests d) graph))
    (Dict.items processes) DiGraph.empty.

Definition detect_deadlock : M bool :=
  processes <- get_processes ;;
  if Dict.is_empty processes then ret false
  else
    let graph := build_graph processes in
    ret (0 <? List.length (DiGraph.simple_cycles graph))%nat.

(** ** JSON requests and responses

    [request_json] is a JSON object as [request.get_json()] returns it; the
    fields the handlers read are strings, as the process and resource names
    of the table are (bodies of another shape come with [json_body] below).
    A response is what [jsonify] is given, with the status code (200 unless
    stated). *)

Definition request_json : Type := Dict.t string.

Inductive json : Type :=
| JBool (b : bool)
| JStr (s : string)
| JProcesses (p : store).

Record response : Type :=
  mkResponse { body : list (string * json); status : nat }.

Definition jsonify (fields : list (string * json)) : response :=
  mkResponse fields 200.

Definition field (k : string) (r : response) : option json :=
  Dict.get k (body r).

(** Truth value of [data.get(k)]: [None] and the empty string are false. *)
Definition truthy (v : option string) : bool :=
  match v with
  | Some s => negb (String.eqb s "")
  | None => false
  end.

Definition py_all (vs : list (option string)) : bool := forallb truthy vs.

Inductive http_method : Type := GET | POST | DELETE.

(** ** [/api/processes] *)

Definition handle_processes (method : http_method) (data : request_json)
  : M response :=
  match method with
  | POST =>
      let process_name := Dict.get "process_name" data in
      let holds := Dict.get "holds_resource" data in
      let requests := Dict.get "requests_resource" data in
      if negb (py_all [process_name; holds; requests]) then
        ret (mkResponse [("error", JStr "All fields are required")] 400)
      else
        match process_name, holds, requests with
        | Some process_name, Some holds, Some requests =>
            setitem process_name (mkDetails holds requests) ;;;
            ret (jsonify [("success", JBool true);
                          ("process", JStr process_name)])
        | _, _, _ =>
            (* not reached: a missing field makes [py_all] false *)
            ret (mkResponse [("error", JStr "All fields are required")] 400)
        end
  | DELETE =>
      put_processes Dict.empty ;;;
      ret (jsonify [("success", JBool true)])
  | GET =>
      processes <- get_processes ;;
      ret (jsonify [("processes", JProcesses processes)])
  end.

(** ** [/api/detect] *)

Definition detect : M response :=
  has_deadlock <- detect_deadlock ;;
  ret (jsonify [("deadlock", JBool has_deadlock)]).

(** ** [/api/resolve]

    [min(iterable, key=f)] keeps the first element whose key is smallest: a
    later element replaces the current one only when its key is strictly
    smaller. *)

Fixpoint min_loop (key : string -> M nat) (best : string) (best_key : nat)
    (rest : list string) : M string :=
  match rest with
  | [] => ret best
  | x :: rest' =>
      kx <- key x ;;
      if (kx <? best_key)%nat then min_loop key x kx rest'
      else min_loop key best best_key rest'
  end.

Definition py_min (iterable : list string) (key : string -> M nat)
  : M string :=
  match iterable with
  | [] => raise (ValueError "min() arg is an empty sequence")
  | x :: rest => kx <- key x ;; min_loop key x kx rest
  end.

Definition holds_len (x : string) : M nat :=
  d <- getitem x ;; ret (String.length (holds d)).

Definition resolve : M response :=
  processes <- get_processes ;;
  if Dict.is_empty processes then
    ret (jsonify [("message", JStr "No processes to resolve")])
  else
    deadlock <- detect_deadlock ;;
    if deadlock then
      processes <- get_processes ;;
      process_to_terminate <- py_min (Dict.keys processes) holds_len ;;
      delitem process_to_terminate ;;;
      processes <- get_processes ;;
      ret (jsonify [("resolved", JBool true);
                    ("terminated", JStr process_to_terminate);
                    ("processes", JProcesses processes)])
    else
      ret (jsonify [("resolved", JBool false);
                    ("message", JStr "No deadlock detected")]).

(** [k] calls of [resolve] in a row, the responses dropped. *)
Fixpoint resolve_times (k : nat) : M unit :=
  match k with
  | O => ret tt
  | S k' => resolve ;;; resolve_times k'
  end.

(** ** [/api/chat]

    The text generator is an external service and [json.dumps] a library
    function: both are taken as given. A failed call of the service, or a
    reply without text, is [generate_content] raising. *)

Section Chat.

Variable json_dumps : store -> string.
Variable generate_content : string -> result string.

Definition fallback : string :=
  "Basic deadlock resolution: Terminate the process holding the fewest resources.".

Definition prompt_of (processes : store) (user_message : string) : string :=
  "You are an expert in operating system deadlocks analyzing this system state:
        " ++ json_dumps processes ++ "

        User Question: " ++ user_message ++ "

        Provide a comprehensive response with:
        1. Deadlock analysis (present or not)
        2. Explanation of the current situation
        3. Step-by-step resolution if deadlock exists
        4. Prevention techniques
        5. Best practices for resource allocation

        Format your response with clear headings and keep it under 300 words.
        ".

Definition call_model (prompt : string) : M string :=
  fun s => (generate_content prompt, s).

Definition chat (data : request_json) : M response :=
  try_except
    (let user_message :=
       match Dict.get "message" data with Some m => m | None => "" end in
     if negb (truthy (Some user_message)) then
       ret (mkResponse [("error", JStr "Message is required")] 400)
     else
       processes <- get_processes ;;
       let prompt := prompt_of processes user_message in
       text <- call_model prompt ;;
       ret (jsonify [("response", JStr text)]))
    (fun e =>
       ret (mkResponse [("error", JStr (str_of_exn e));
                        ("fallback", JStr fallback)] 500)).

End Chat.

(** ** [generate_rag_image] and [/api/visualize]

    The drawn graph carries a colour on its nodes. [add_node(u, color=c)]
    appends a new node with the colour, or sets the colour of a node that is
    there; [add_edge] appends the end points that are new, without a colour.
    [G.nodes[u]['color']] raises [KeyError] on a node without one. *)

Module ColorGraph.

Record t : Type :=
  mk { nodes : Dict.t (option string); edges : list (string * string) }.

Definition empty : t := mk [] [].

Definition add_node (u : string) (color : string) (g : t) : t :=
  mk (Dict.set u (Some color) (nodes g)) (edges g).

Definition touch_node (u : string) (g : t) : t :=
  if Dict.mem u (nodes g) then g else mk (Dict.set u None (nodes g)) (edges g).

Definition has_edge (g : t) (u v : string) : bool :=
  existsb (DiGraph.edge_eqb (u, v)) (edges g).

Definition add_edge (u v : string) (g : t) : t :=
  let g' := touch_node v (touch_node u g) in
  if has_edge g' u v then g' else mk (nodes g') (edges g' ++ [(u, v)]).

End ColorGraph.

Definition indigo : string := "#6366f1".
Definition emerald : string := "#10b981".

Definition rag_image_graph (processes : store) : ColorGraph.t :=
  fold_left
    (fun G '(process, d) =>
       ColorGraph.add_edge process (requests d)
         (ColorGraph.add_edge (holds d) process
            (ColorGraph.add_node (requests d) emerald
               (ColorGraph.add_node (holds d) emerald
                  (ColorGraph.add_node process indigo G)))))
    (Dict.items processes) ColorGraph.empty.

(** [[G.nodes[node]['color'] for node in G.nodes]] *)
Fixpoint node_colors (ns : list (string * option string)) : M (list string) :=
  match ns with
  | [] => ret []
  | (_, Some color) :: ns' =>
      colors <- node_colors ns' ;; ret (color :: colors)
  | (_, None) :: _ => raise (KeyError "color")
  end.

(** The figure, the layout, the drawing and its encoding as a base-64 PNG
    are the plotting library's: [draw] stands for them, and like them it
    returns the image or raises (the drawing rejects some labels). *)

Section Visualize.

Variable draw : ColorGraph.t -> list string -> result string.

Definition call_draw (G : ColorGraph.t) (colors : list string) : M string :=
  fun s => (draw G colors, s).

Definition generate_rag_image : M string :=
  processes <- get_processes ;;
  let G := rag_image_graph processes in
  colors <- node_colors (ColorGraph.nodes G) ;;
  call_draw G colors.

Definition visualize : M response :=
  processes <- get_processes ;;
  if Dict.is_empty processes then
    ret (mkResponse [("error", JStr "No processes to visualize")] 400)
  else
    image <- generate_rag_image ;;
    ret (jsonify [("image", JStr image)]).

End Visualize.

(** ** The request as it arrives

    [handle_processes] and [chat] above are the handlers once
    [request.get_json()] has returned a JSON object. The handlers of the
    source start one step earlier: [request.get_json()] returns whatever
    JSON the body holds, or raises, and [data.get] raises [AttributeError]
    on a value that is no object (a list, a string, a number, a boolean,
    [None]); [type_name] is the Python type of that value. A request
    without a JSON body is [Unparsed] or [Parsed (JOther "NoneType")],
    as the framework's version has it. *)

Inductive json_value : Type :=
| JObject (data : request_json)
| JOther (type_name : string).

Inductive json_body : Type :=
| Parsed (v : json_value)
| Unparsed (e : exn).

Definition request_get_json (body : json_body) : M json_value :=
  match body with
  | Parsed v => ret v
  | Unparsed e => raise e
  end.

Definition no_attribute_get (type_name : string) : exn :=
  AttributeError ("'" ++ type_name ++ "' object has no attribute 'get'").

Definition py_get (data : json_value) (k : string) : M (option string) :=
  match data with
  | JObject d => ret (Dict.get k d)
  | JOther type_name => raise (no_attribute_get type_name)
  end.

Definition handle_processes_request (method : http_method) (body : json_body)
  : M response :=
  match method with
  | POST =>
      data <- request_get_json body ;;
      process_name <- py_get data "process_name" ;;
      holds <- py_get data "holds_resource" ;;
      requests <- py_get data "requests_resource" ;;
      if negb (py_all [process_name; holds; requests]) then
        ret (mkResponse [("error", JStr "All fields are required")] 400)
      else
        match process_name, holds, requests with
        | Some process_name, Some holds, Some requests =>
            setitem process_name (mkDetails holds requests) ;;;
            ret (jsonify [("success", JBool true);
                          ("process", JStr process_name)])
        | _, _, _ =>
            (* not reached: a missing field makes [py_all] false *)
            ret (mkResponse [("error", JStr "All fields are required")] 400)
        end
  | DELETE =>
      put_processes Dict.empty ;;;
      ret (jsonify [("success", JBool true)])
  | GET =>
      processes <- get_processes ;;
      ret (jsonify [("processes", JProcesses processes)])
  end.

Section ChatRequest.

Variable json_dumps : store -> string.
Variable generate_content : string -> result string.

Definition chat_request (body : json_body) : M response :=
  try_except
    (data <- request_get_json body ;;
     got <- py_get data "message" ;;
     let user_message := match got with Some m => m | None => "" end in
     if negb (truthy (Some user_message)) then
       ret (mkResponse [("error", JStr "Message is required")] 400)
     else
       processes <- get_processes ;;
       let prompt := prompt_of json_dumps processes user_message in
       text <- call_model generate_content prompt ;;
       ret (jsonify [("response", JStr text)]))
    (fun e =>
       ret (mkResponse [("error", JStr (str_of_exn e));
                        ("fallback", JStr fallback)] 500)).

End ChatRequest.

(** ** The routes

    One request to one of the [/api] routes, and a run of requests against
    the table. An exception that escapes a handler is answered by the
    framework, and the next request is served on the table as it is. *)

Inductive request : Type :=
| ReqProcesses (method : http_method) (body : json_body)
| ReqDetect
| ReqVisualize
| ReqResolve
| ReqChat (body : json_body).

Section Routes.

Variable json_dumps : store -> string.
Variable generate_content : string -> result string.
Variable draw : ColorGraph.t -> list string -> result string.

Definition route (r : request) : M response :=
  match r with
  | ReqProcesses method body => handle_processes_request method body
  | ReqDetect => detect
  | ReqVisualize => visualize draw
  | ReqResolve => resolve
  | ReqChat body => chat_request json_dumps generate_content body
  end.

Fixpoint serve (rs : list request) (s : store)
  : list (result response) * store :=
  match rs with
  | [] => ([], s)
  | r :: rs' =>
      let (out, s1) := route r s in
      let (outs, s2) := serve rs' s1 in
      (out :: outs, s2)
  end.

End Routes.

(** * Vocabulary of the properties *)

(** ** Graphs: edges, walks *)

Module GraphSpec.
Import DiGraph.

(** Both ends of every edge are nodes. *)
Definition closed (g : t) : Prop :=
  forall u v, In (u, v) (edges g) -> In u (nodes g) /\ In v (nodes g).

Definition edge_of (g : t) (u v : string) : Prop := In (u, v) (edges g).

(** Each node of [l] has an edge to the next one. *)
Fixpoint walk_on (g : t) (l : list string) : Prop :=
  match l with
  | a :: (b :: _) as rest => edge_of g a b /\ walk_on g rest
  | _ => True
  end.

(** [c] lists the nodes of a simple cycle: no node twice, an edge from each
    node to the next and from the last one back to the first. *)
Definition simple_cycle (g : t) (c : list string) : Prop :=
  match c with
  | [] => False
  | first :: _ => NoDup c /\ walk_on g c /\ edge_of g (last c first) first
  end.

End GraphSpec.

(** [chain E u l v]: there is an edge from [u] to the first node of [l],
    from each node of [l] to the next, and from the last one to [v] (an edge
    from [u] to [v] when [l] is empty). *)
Fixpoint chain (E : string -> string -> Prop)
    (u : string) (l : list string) (v : string) : Prop :=
  match l with
  | [] => E u v
  | x :: l' => E u x /\ chain E x l' v
  end.

(** ** The graph of a process table

    [rag_edge] is the edge relation as the design describes it: for each
    entry, an edge from the held resource to the process and an edge from
    the process to the requested resource. Process and resource names are
    nodes of one graph: a name used for both is one node. A directed cycle
    is a non-empty closed walk; a self-loop is one. *)

Definition rag_edge (processes : store) (u v : string) : Prop :=
  exists p d, In (p, d) processes /\
              ((u = holds d /\ v = p) \/ (u = p /\ v = requests d)).

Definition has_directed_cycle (processes : store) : Prop :=
  exists v, clos_trans string (rag_edge processes) v v.

(** The same edges as a list. *)
Definition rag_edges (processes : store) : list (string * string) :=
  flat_map (fun '(p, d) => [(holds d, p); (p, requests d)]) processes.

(** One turn of the loop of [build_graph]. *)
Definition graph_step (graph : DiGraph.t) (item : string * details)
  : DiGraph.t :=
  let '(process, d) := item in
  DiGraph.add_edge (holds d) process
    (DiGraph.add_edge process (requests d) graph).

(** The answer of [detect_deadlock], as a function of the table. *)
Definition cyclicb (processes : store) : bool :=
  if Dict.is_empty processes then false
  else (0 <? List.length (DiGraph.simple_cycles (build_graph processes)))%nat.

(** ** The victim of [resolve]

    [first_min f best rest] is the pure reading of [min(..., key=f)] on
    [best :: rest]; [victim] is what [resolve] picks. *)

Fixpoint first_min (f : string -> nat) (best : string) (rest : list string)
  : string :=
  match rest with
  | [] => best
  | x :: rest' =>
      if (f x <? f best)%nat then first_min f x rest'
      else first_min f best rest'
  end.

Definition holds_length (processes : store) (x : string) : nat :=
  match Dict.get x processes with
  | Some d => String.length (holds d)
  | None => 0
  end.

Definition victim (processes : store) : option string :=
  match Dict.keys processes with
  | [] => None
  | k :: rest => Some (first_min (holds_length processes) k rest)
  end.

(** The table after one [resolve] call. *)
Definition resolve_state (processes : store) : store :=
  if cyclicb processes then
    match victim processes with
    | Some v => Dict.del v processes
    | None => processes
    end
  else processes.

(** ** Responses *)

Definition resolved_response (v : string) (processes : store) : response :=
  jsonify [("resolved", JBool true); ("terminated", JStr v);
           ("processes", JProcesses processes)].

(** Whether a response reports a resolution: its [resolved] field is there
    and true. *)
Definition reports_resolved (r : response) : bool :=
  match field "resolved" r with
  | Some (JBool true) => true
  | _ => false
  end.

(** A request field that is absent or empty. *)
Definition missing (v : option string) : Prop := v = None \/ v = Some "".

(** ** Tables whose processes form a cycle

    The [n] entries can be put in a row in which each process requests what
    the next one holds, and the last one requests what the first one
    holds. *)

Fixpoint linked (l : list (string * details)) : Prop :=
  match l with
  | a :: (b :: _) as rest => requests (snd a) = holds (snd b) /\ linked rest
  | _ => True
  end.

Definition forms_cycle (n : nat) (processes : store) : Prop :=
  List.length processes = n
  /\ exists first rest,
       Permutation (first :: rest) processes
       /\ linked (first :: rest)
       /\ requests (snd (last rest first)) = holds (snd first).

(** ** Sample tables and requests *)

(** Two processes that wait for each other. *)
Definition two_cycle : store :=
  [("P1", mkDetails "R1" "R2"); ("P2", mkDetails "R2" "R1")].

(** No cycle: nobody holds [R3]. *)
Definition open_chain : store :=
  [("P1", mkDetails "R1" "R2"); ("P2", mkDetails "R2" "R3")].

(** A tie: [P2] and [P3] both hold a resource with a two-letter name. *)
Definition tie_store : store :=
  [("P1", mkDetails "R10" "R2"); ("P2", mkDetails "R2" "R3");
   ("P3", mkDetails "R3" "R10")].

(** [X] holds the shortest name and is on no cycle; [P1] and [P2] wait for
    each other. *)
Definition outsider_store : store :=
  [("P1", mkDetails "R1" "R2"); ("P2", mkDetails "R2" "R1");
   ("X", mkDetails "R" "Q")].

Definition add_p1 : request_json :=
  [("process_name", "P1"); ("holds_resource", "R1");
   ("requests_resource", "R2")].

Definition add_no_holds : request_json :=
  [("process_name", "P1"); ("holds_resource", "");
   ("requests_resource", "R2")].

Definition add_p3 : request_json :=
  [("process_name", "P3"); ("holds_resource", "R3");
   ("requests_resource", "R4")].

Definition ask_why : request_json := [("message", "Why is P1 waiting?")].

(** A text generator that is down, and a table printer. *)
Definition generator_down (prompt : string) : result string :=
  Raise (UpstreamFailure "503 Service Unavailable").

Definition dumps_stub (processes : store) : string := "{}".

(** ** More vocabulary *)

(** The names that some process of the table holds or requests. *)
Definition resource_names (processes : store) : list string :=
  flat_map (fun '(_, d) => [holds d; requests d]) processes.

(** Every entry has a non-empty name, held and requested resource. *)
Definition all_named (processes : store) : Prop :=
  forall p d, In (p, d) processes ->
              p <> "" /\ holds d <> "" /\ requests d <> "".

(** An order on the resources that every process respects: it requests a
    resource above the one it holds. *)
Definition respects_order (rank : string -> nat) (processes : store) : Prop :=
  forall p d, In (p, d) processes -> rank (holds d) < rank (requests d).

(** No name is both a process and a resource. *)
Definition names_apart (processes : store) : Prop :=
  forall x, In x (Dict.keys processes) -> ~ In x (resource_names processes).

(** Rank of a node from a rank of the resources: a process sits right above
    the resource it holds. *)
Definition node_rank (rank : string -> nat) (processes : store) (x : string)
  : nat :=
  match Dict.get x processes with
  | Some d => S (2 * rank (holds d))
  | None => 2 * rank x
  end.

(** One turn of the loop of [generate_rag_image], and what it does to the
    nodes. *)
Definition image_step (G : ColorGraph.t) (item : string * details)
  : ColorGraph.t :=
  let '(process, d) := item in
  ColorGraph.add_edge process (requests d)
    (ColorGraph.add_edge (holds d) process
       (ColorGraph.add_node (requests d) emerald
          (ColorGraph.add_node (holds d) emerald
             (ColorGraph.add_node process indigo G)))).

Definition node_step (ns : Dict.t (option string)) (item : string * details)
  : Dict.t (option string) :=
  let '(process, d) := item in
  Dict.set (requests d) (Some emerald)
    (Dict.set (holds d) (Some emerald)
       (Dict.set process (Some indigo) ns)).

(** Every node has one of the two colours. *)
Definition two_coloured (ns : Dict.t (option string)) : Prop :=
  forall x a, In (x, a) ns -> a = Some indigo \/ a = Some emerald.

Definition colour_of (n : string * option string) : string :=
  match snd n with
  | Some c => c
  | None => ""
  end.

(** The resource an entry holds; the resource the head of a row holds, or
    [t] after the last entry; a row in which each process requests what the
    next one holds, and the last one requests [t]. *)
Definition held (e : string * details) : string := holds (snd e).

Definition next_held (C : list (string * details)) (t : string) : string :=
  match C with
  | [] => t
  | e :: _ => held e
  end.

Fixpoint linked_to (C : list (string * details)) (t : string) : Prop :=
  match C with
  | [] => True
  | e :: C' => requests (snd e) = next_held C' t /\ linked_to C' t
  end.

(** No resource is held by two processes. *)
Definition distinct_held (processes : store) : Prop :=
  NoDup (map held processes).

Fixpoint index_of (x : string) (l : list string) : nat :=
  match l with
  | [] => 0
  | y :: l' => if String.eqb x y then 0 else S (index_of x l')
  end.

(** JSON bodies: objects, the empty list, and no JSON at all. *)
Definition object_body (data : request_json) : json_body :=
  Parsed (JObject data).

Definition list_body : json_body := Parsed (JOther "list").

Definition broken_body : json_body :=
  Unparsed (HTTPException 400 "400 Bad Request: Failed to decode JSON object").

Definition sample_run : list request :=
  [ReqProcesses POST (object_body add_p1);
   ReqProcesses POST (object_body add_no_holds); ReqDetect;
   ReqProcesses POST list_body;
   ReqProcesses POST (object_body add_p3); ReqVisualize; ReqResolve;
   ReqChat (object_body ask_why); ReqChat broken_body].

(** A text generator that always answers. *)
Definition generator_up (prompt : string) : result string := Ok "No deadlock.".

Definition order_r123 (x : string) : nat :=
  if String.eqb x "R1" then 1 else if String.eqb x "R2" then 2 else 3.

Definition draw_stub (G : ColorGraph.t) (colors : list string)
  : result string :=
  Ok "iVBORw0KGgo=".

(** A drawing that rejects the label [$_$]. *)
Definition draw_strict (G : ColorGraph.t) (colors : list string)
  : result string :=
  if Dict.mem "$_$" (ColorGraph.nodes G)
  then Raise (ValueError "ParseFatalException: Expected end of text")
  else Ok "iVBORw0KGgo=".

Definition dollar_store : store := [("$_$", mkDetails "R1" "R2")].

Definition drawn_colours (s : store) : list string :=
  map colour_of (ColorGraph.nodes (rag_image_graph s)).


(** * Properties *)

(** ** The embedding at work *)

Example ex_two_cycle :
  detect_deadlock [("P1", mkDetails "R1" "R2"); ("P2", mkDetails "R2" "R1")]
  = (Ok true, [("P1", mkDetails "R1" "R2"); ("P2", mkDetails "R2" "R1")]).
Proof. reflexivity. Qed.

Example ex_two_cycle_list :
  DiGraph.simple_cycles
    (build_graph [("P1", mkDetails "R1" "R2"); ("P2", mkDetails "R2" "R1")])
  = [["P1"; "R2"; "P2"; "R1"]].
Proof. reflexivity. Qed.

Example ex_chain_no_cycle :
  fst (detect_deadlock
         [("P1", mkDetails "R1" "R2"); ("P2", mkDetails "R2" "R3")])
  = Ok false.
Proof. reflexivity. Qed.

Example ex_self_loop :
  DiGraph.simple_cycles (build_graph [("A", mkDetails "A" "B")]) = [["A"]].
Proof. reflexivity. Qed.

Example ex_resolve_two_cycle :
  resolve [("P1", mkDetails "R1" "R2"); ("P2", mkDetails "R2" "R1")]
  = (Ok (jsonify [("resolved", JBool true); ("terminated", JStr "P1");
                  ("processes", JProcesses [("P2", mkDetails "R2" "R1")])]),
     [("P2", mkDetails "R2" "R1")]).
Proof. reflexivity. Qed.

Example ex_resolve_shortest_holds :
  fst (resolve [("P1", mkDetails "R10" "R2"); ("P2", mkDetails "R2" "R10")])
  = Ok (jsonify [("resolved", JBool true); ("terminated", JStr "P2");
                 ("processes", JProcesses [("P1", mkDetails "R10" "R2")])]).
Proof. reflexivity. Qed.

(** ** Membership tests *)

Lemma existsb_eqb_In (x : string) (l : list string) :
  existsb (String.eqb x) l = true <-> In x l.
Proof.
  rewrite existsb_exists. split.
  - intros [y [Hy Heq]]. apply String.eqb_eq in Heq. now subst.
  - intros H. exists x. split; [assumption | apply String.eqb_refl].
Qed.

Lemma existsb_eqb_not_In (x : string) (l : list string) :
  existsb (String.eqb x) l = false <-> ~ In x l.
Proof.
  rewrite <- existsb_eqb_In. destruct (existsb _ l); split; intros H;
    try reflexivity; try discriminate; try (intros H'; discriminate).
  exfalso. now apply H.
Qed.

Lemma edge_eqb_eq (e1 e2 : string * string) :
  DiGraph.edge_eqb e1 e2 = true <-> e1 = e2.
Proof.
  destruct e1 as [a b], e2 as [c d]. unfold DiGraph.edge_eqb. simpl.
  rewrite andb_true_iff, !String.eqb_eq. split.
  - intros [-> ->]. reflexivity.
  - intros H. inversion H. auto.
Qed.

(** ** The graph operations *)

Module GraphFacts.
Import DiGraph GraphSpec.

Lemma nodes_add_node u g x :
  In x (nodes (add_node u g)) <-> x = u \/ In x (nodes g).
Proof.
  unfold add_node. destruct (has_node g u) eqn:Hn; simpl.
  - apply existsb_eqb_In in Hn. split; [auto | intros [-> | H]; assumption].
  - rewrite in_app_iff. simpl. split.
    + intros [H | [H | []]]; auto.
    + intros [-> | H]; auto.
Qed.

Lemma edges_add_node u g : edges (add_node u g) = edges g.
Proof. unfold add_node. now destruct (has_node g u). Qed.

Lemma edges_add_edge u v g e :
  In e (edges (add_edge u v g)) <-> e = (u, v) \/ In e (edges g).
Proof.
  unfold add_edge.
  destruct (has_edge (add_node v (add_node u g)) u v) eqn:He; simpl.
  - rewrite !edges_add_node. unfold has_edge in He.
    rewrite !edges_add_node in He. apply existsb_exists in He.
    destruct He as [e' [Hin Heq]]. apply edge_eqb_eq in Heq. subst e'.
    split; [auto | intros [-> | H]; assumption].
  - rewrite in_app_iff, !edges_add_node. simpl. split.
    + intros [H | [H | []]]; auto.
    + intros [-> | H]; auto.
Qed.

Lemma nodes_add_edge u v g x :
  In x (nodes (add_edge u v g)) <-> x = u \/ x = v \/ In x (nodes g).
Proof.
  unfold add_edge.
  destruct (has_edge (add_node v (add_node u g)) u v); simpl;
    rewrite !nodes_add_node; tauto.
Qed.

Lemma closed_empty : closed empty.
Proof. intros u v []. Qed.

Lemma closed_add_edge u v g : closed g -> closed (add_edge u v g).
Proof.
  intros Hc a b Hin. apply edges_add_edge in Hin. rewrite !nodes_add_edge.
  destruct Hin as [Heq | Hin].
  - inversion Heq. subst. auto.
  - destruct (Hc a b Hin). auto.
Qed.

Lemma successors_spec g u v :
  In v (successors g u) <-> In (u, v) (edges g).
Proof.
  unfold successors. rewrite in_map_iff. split.
  - intros [[a b] [Hb Hin]]. simpl in Hb. subst b.
    apply filter_In in Hin. destruct Hin as [Hin Ha]. simpl in Ha.
    apply String.eqb_eq in Ha. now subst.
  - intros Hin. exists (u, v). split; [reflexivity |].
    apply filter_In. split; [assumption | apply String.eqb_refl].
Qed.

End GraphFacts.

(** ** The graph that [build_graph] builds has the edges of [rag_edge] *)

Lemma build_graph_fold processes :
  build_graph processes = fold_left graph_step processes DiGraph.empty.
Proof.
  unfold build_graph, Dict.items. f_equal.
Qed.

Lemma fold_graph_edges (l : store) : forall g u v,
  In (u, v) (DiGraph.edges (fold_left graph_step l g)) <->
  In (u, v) (DiGraph.edges g) \/ rag_edge l u v.
Proof.
  induction l as [| [p d] l IH]; intros g u v; simpl.
  - split; [auto | intros [H | [p [d [[] _]]]]; assumption].
  - rewrite IH, !GraphFacts.edges_add_edge. unfold rag_edge. split.
    + intros [[Heq | [Heq | Hin]] | [q [e [Hin Hc]]]].
      * inversion Heq; subst. right. exists p, d. simpl. auto.
      * inversion Heq; subst. right. exists p, d. simpl. auto.
      * auto.
      * right. exists q, e. simpl. auto.
    + intros [Hin | [q [e [[Heq | Hin] Hc]]]].
      * auto.
      * inversion Heq; subst q e. left.
        destruct Hc as [[-> ->] | [-> ->]]; auto.
      * right. exists q, e. auto.
Qed.

Lemma build_graph_edges processes u v :
  In (u, v) (DiGraph.edges (build_graph processes)) <-> rag_edge processes u v.
Proof.
  rewrite build_graph_fold, fold_graph_edges. simpl. tauto.
Qed.

Lemma fold_graph_closed (l : store) : forall g,
  GraphSpec.closed g -> GraphSpec.closed (fold_left graph_step l g).
Proof.
  induction l as [| [p d] l IH]; intros g Hc; simpl; [assumption |].
  apply IH. now do 2 apply GraphFacts.closed_add_edge.
Qed.

Lemma build_graph_closed processes : GraphSpec.closed (build_graph processes).
Proof.
  rewrite build_graph_fold. apply fold_graph_closed, GraphFacts.closed_empty.
Qed.

(** ** Walks and simple paths *)

Section Paths.

Variable E : string -> string -> Prop.

Lemma chain_app : forall l1 u x l2 v,
  chain E u (l1 ++ x :: l2) v <-> chain E u l1 x /\ chain E x l2 v.
Proof.
  induction l1 as [| y l1 IH]; intros u x l2 v; simpl.
  - tauto.
  - rewrite IH. tauto.
Qed.

Lemma chain_clos_trans : forall l u v, chain E u l v -> clos_trans string E u v.
Proof.
  induction l as [| x l IH]; intros u v H; simpl in H.
  - now apply t_step.
  - destruct H as [H1 H2]. eapply t_trans; [apply t_step; eassumption |].
    now apply IH.
Qed.

Lemma clos_trans_chain u v :
  clos_trans string E u v -> exists l, chain E u l v.
Proof.
  intros H. apply clos_trans_t1n in H.
  induction H as [u v H | u w v H _ [l IH]].
  - now exists [].
  - exists (w :: l). simpl. auto.
Qed.

(** Every walk contains a simple path between the same end points. *)
Lemma chain_simple : forall l u v,
  chain E u l v ->
  exists l', chain E u l' v /\ NoDup l' /\ ~ In u l' /\ ~ In v l' /\ incl l' l.
Proof.
  induction l as [| x l IH]; intros u v H; simpl in H.
  - exists []. simpl. repeat split; auto using NoDup_nil, incl_nil_l.
  - destruct H as [Hux Hxv].
    destruct (IH x v Hxv) as [l0 [Hc [Hnd [Hx [Hv Hincl]]]]].
    destruct (string_dec x v) as [-> | Hxv'].
    { exists []. simpl. repeat split; auto using NoDup_nil, incl_nil_l. }
    destruct (string_dec x u) as [-> | Hxu].
    { exists l0. repeat split; auto using incl_tl. }
    destruct (In_dec string_dec u l0) as [Hin | Hnin].
    + apply in_split in Hin. destruct Hin as [a [b ->]].
      apply chain_app in Hc. destruct Hc as [_ Hc].
      apply NoDup_remove in Hnd. destruct Hnd as [Hnd Hu].
      exists b. repeat split.
      * assumption.
      * apply NoDup_app_remove_l in Hnd. assumption.
      * intros Hb. apply Hu. apply in_or_app. auto.
      * intros Hb. apply Hv. apply in_or_app. simpl. auto.
      * intros y Hy. right. apply Hincl. apply in_or_app. simpl. auto.
    + exists (x :: l0). simpl. repeat split.
      * assumption.
      * assumption.
      * now constructor.
      * intros [Heq | Hin]; [now apply Hxu | now apply Hnin].
      * intros [Heq | Hin]; [now apply Hxv' | now apply Hv].
      * intros y [-> | Hy]; [now left | right; now apply Hincl].
Qed.

(** A closed walk can be restarted at any node it visits. *)
Lemma chain_rotate v l s :
  chain E v l v -> In s (v :: l) ->
  exists l', chain E s l' s /\ incl (s :: l') (v :: l).
Proof.
  intros Hc [-> | Hin].
  - exists l. split; [assumption | apply incl_refl].
  - apply in_split in Hin. destruct Hin as [a [b ->]].
    apply chain_app in Hc. destruct Hc as [Hvs Hsv].
    exists (b ++ v :: a). split.
    + apply chain_app. auto.
    + intros y [<- | Hy].
      * right. apply in_or_app. simpl. auto.
      * apply in_app_or in Hy. destruct Hy as [Hy | [<- | Hy]].
        -- right. apply in_or_app. simpl. auto.
        -- now left.
        -- right. apply in_or_app. auto.
Qed.

End Paths.

(** ** The cycle enumeration finds a cycle exactly when there is one *)

Module CycleFacts.
Import DiGraph GraphSpec.

Lemma cycles_from_sound g root allowed : forall fuel path cur c,
  In c (cycles_from fuel g root allowed path cur) ->
  clos_refl_trans string (edge_of g) root cur ->
  clos_trans string (edge_of g) root root.
Proof.
  induction fuel as [| fuel IH]; intros path cur c Hin Hrt; simpl in Hin.
  - destruct Hin.
  - apply in_flat_map in Hin. destruct Hin as [w [Hw Hin]].
    apply GraphFacts.successors_spec in Hw.
    destruct (String.eqb w root) eqn:Hroot.
    + apply String.eqb_eq in Hroot. subst w.
      eapply clos_rt_t; [eassumption | now apply t_step].
    + destruct (existsb (String.eqb w) allowed
                && negb (existsb (String.eqb w) path)); [| destruct Hin].
      eapply IH; [eassumption |].
      eapply rt_trans; [eassumption | now apply rt_step].
Qed.

Lemma walk_on_snoc g : forall l a w,
  walk_on g (l ++ [a]) -> edge_of g a w -> walk_on g ((l ++ [a]) ++ [w]).
Proof.
  induction l as [| x l IH]; intros a w Hw He.
  - simpl. auto.
  - destruct l as [| y l].
    + simpl in *. tauto.
    + simpl in Hw. destruct Hw as [Hxy Hw]. simpl. split; [assumption |].
      apply (IH a w); assumption.
Qed.

Lemma hd_app_cons {A} (l1 l2 : list A) (a d d' : A) :
  hd d ((l1 ++ [a]) ++ l2) = hd d' (l1 ++ [a]).
Proof. now destruct l1. Qed.

(** What the search lists are simple cycles of the graph. *)
Lemma cycles_from_simple g root allowed : forall fuel q cur c,
  In c (cycles_from fuel g root allowed (cur :: q) cur) ->
  NoDup (cur :: q) ->
  walk_on g (rev (cur :: q)) ->
  hd cur (rev (cur :: q)) = root ->
  simple_cycle g c.
Proof.
  induction fuel as [| fuel IH]; intros q cur c Hin Hnd Hw Hhd;
    cbn [cycles_from] in Hin.
  - destruct Hin.
  - apply in_flat_map in Hin. destruct Hin as [w [Hsucc Hin]].
    apply GraphFacts.successors_spec in Hsucc.
    destruct (String.eqb w root) eqn:Hroot.
    + apply String.eqb_eq in Hroot. subst w.
      destruct Hin as [<- | []].
      destruct (rev (cur :: q)) as [| first rest] eqn:Hr.
      * simpl in Hr. symmetry in Hr. now apply app_cons_not_nil in Hr.
      * simpl in Hhd. subst first. cbn [simple_cycle].
        split; [| split].
        -- rewrite <- Hr. now apply NoDup_rev.
        -- assumption.
        -- rewrite <- Hr. simpl rev. now rewrite last_last.
    + destruct (existsb (String.eqb w) allowed) eqn:Hall;
        [| destruct Hin].
      destruct (existsb (String.eqb w) (cur :: q)) eqn:Hpath;
        [destruct Hin |].
      apply existsb_eqb_not_In in Hpath.
      apply (IH (cur :: q) w c Hin).
      * now constructor.
      * change (rev (w :: cur :: q)) with ((rev q ++ [cur]) ++ [w]).
        now apply walk_on_snoc.
      * change (rev (w :: cur :: q)) with ((rev q ++ [cur]) ++ [w]).
        rewrite (hd_app_cons _ _ _ _ cur). exact Hhd.
Qed.

Lemma simple_cycles_are_simple g c :
  In c (simple_cycles g) -> simple_cycle g c.
Proof.
  unfold simple_cycles. generalize (nodes g).
  induction l as [| root rest IH]; cbn [simple_cycles_in]; intros Hin.
  - destruct Hin.
  - apply in_app_or in Hin. destruct Hin as [Hin | Hin]; [| now apply IH].
    apply (cycles_from_simple g root rest _ [] root c Hin).
    + constructor; [intros [] | constructor].
    + exact I.
    + reflexivity.
Qed.

Lemma simple_cycles_in_sound g : forall ns c,
  In c (simple_cycles_in g ns) ->
  exists v, clos_trans string (edge_of g) v v.
Proof.
  induction ns as [| root rest IH]; intros c Hin;
    cbn [simple_cycles_in] in Hin.
  - destruct Hin.
  - apply in_app_or in Hin. destruct Hin as [Hin | Hin].
    + exists root. eapply cycles_from_sound; [eassumption | apply rt_refl].
    + eapply IH. eassumption.
Qed.

Lemma cycles_from_complete g root allowed : forall l fuel path cur,
  List.length l < fuel ->
  NoDup l -> ~ In root l -> incl l allowed ->
  (forall x, In x l -> ~ In x path) ->
  chain (edge_of g) cur l root ->
  In (rev (rev l ++ path)) (cycles_from fuel g root allowed path cur).
Proof.
  induction l as [| x l IH]; intros fuel path cur Hfuel Hnd Hroot Hall Hpath Hc;
    (destruct fuel as [| fuel]; [simpl in Hfuel; lia |]); simpl in Hc |- *.
  - apply in_flat_map. exists root. split.
    + now apply GraphFacts.successors_spec.
    + rewrite String.eqb_refl. now left.
  - destruct Hc as [Hcx Hc]. apply in_flat_map. exists x. split.
    + now apply GraphFacts.successors_spec.
    + assert (Hxr : String.eqb x root = false).
      { apply String.eqb_neq. intros ->. apply Hroot. now left. }
      assert (Hxa : existsb (String.eqb x) allowed = true).
      { apply existsb_eqb_In. apply Hall. now left. }
      assert (Hxp : existsb (String.eqb x) path = false).
      { apply existsb_eqb_not_In. apply Hpath. now left. }
      rewrite Hxr, Hxa, Hxp. simpl.
      rewrite <- app_assoc. simpl.
      inversion Hnd as [| y l' Hx Hnd']. subst.
      apply IH.
      * simpl in Hfuel. lia.
      * assumption.
      * intros H. apply Hroot. now right.
      * intros y Hy. apply Hall. now right.
      * intros y Hy [<- | Hin]; [now apply Hx |].
        apply (Hpath y); [now right | assumption].
      * assumption.
Qed.

Lemma simple_cycles_in_complete g : forall ns v l,
  chain (edge_of g) v l v -> incl (v :: l) ns ->
  simple_cycles_in g ns <> [].
Proof.
  induction ns as [| root rest IH]; intros v l Hc Hincl.
  - exfalso. apply (Hincl v). now left.
  - cbn [simple_cycles_in].
    destruct (In_dec string_dec root (v :: l)) as [Hin | Hnin].
    + destruct (chain_rotate _ v l root Hc Hin) as [l1 [Hc1 Hincl1]].
      destruct (chain_simple _ l1 root root Hc1)
        as [l2 [Hc2 [Hnd [Hroot [_ Hincl2]]]]].
      assert (Hrest : incl l2 rest).
      { intros y Hy.
        destruct (Hincl y) as [<- | Hr].
        - apply Hincl1. right. now apply Hincl2.
        - contradiction.
        - assumption. }
      assert (Hlen : List.length l2 <= List.length rest)
        by now apply NoDup_incl_length.
      assert (Hfound : In (rev (rev l2 ++ [root]))
                (cycles_from (S (List.length rest)) g root rest [root] root)).
      { apply cycles_from_complete; try assumption.
        - lia.
        - intros y Hy [<- | []]. contradiction. }
      intros Hnil. apply app_eq_nil in Hnil. destruct Hnil as [Hnil _].
      rewrite Hnil in Hfound. destruct Hfound.
    + intros Hnil. apply app_eq_nil in Hnil. destruct Hnil as [_ Hnil].
      apply (IH v l Hc); [| assumption].
      intros y Hy. destruct (Hincl y Hy) as [<- | Hr]; [contradiction | assumption].
Qed.

Lemma chain_nodes g :
  GraphSpec.closed g ->
  forall l u w, chain (edge_of g) u l w -> incl (u :: l) (nodes g).
Proof.
  intros Hclosed. induction l as [| x l IH]; intros u w H; simpl in H.
  - intros y [<- | Hf]; [| destruct Hf]. now destruct (Hclosed _ _ H).
  - destruct H as [H1 H2]. intros y [<- | Hy].
    + now destruct (Hclosed _ _ H1).
    + now apply (IH x w H2).
Qed.

Lemma simple_cycles_nonempty g :
  GraphSpec.closed g ->
  (simple_cycles g <> [] <-> exists v, clos_trans string (edge_of g) v v).
Proof.
  intros Hclosed. unfold simple_cycles. split.
  - intros Hne. destruct (simple_cycles_in g (nodes g)) as [| c cs] eqn:Hcs.
    + now elim Hne.
    + apply (simple_cycles_in_sound g (nodes g) c). rewrite Hcs. now left.
  - intros [v Hv]. apply clos_trans_chain in Hv. destruct Hv as [l Hc].
    apply (simple_cycles_in_complete g (nodes g) v l Hc).
    now apply (chain_nodes g Hclosed l v v).
Qed.

End CycleFacts.

(** ** What [detect_deadlock] computes *)

Lemma detect_deadlock_run processes :
  detect_deadlock processes = (Ok (cyclicb processes), processes).
Proof.
  unfold detect_deadlock, cyclicb, bind, get_processes, ret.
  now destruct (Dict.is_empty processes).
Qed.

Lemma clos_trans_incl (R R' : string -> string -> Prop) :
  (forall a b, R a b -> R' a b) ->
  forall u v, clos_trans string R u v -> clos_trans string R' u v.
Proof.
  intros Hsub u v H. induction H as [u v H | u w v _ IH1 _ IH2].
  - apply t_step. now apply Hsub.
  - now apply t_trans with w.
Qed.

Lemma graph_cycle_iff processes :
  (exists v, clos_trans string (GraphSpec.edge_of (build_graph processes)) v v)
  <-> has_directed_cycle processes.
Proof.
  unfold has_directed_cycle. split; intros [v Hv]; exists v;
    revert Hv; apply clos_trans_incl; intros a b Hab;
    now apply build_graph_edges.
Qed.

Lemma no_edge_in_empty u v : ~ rag_edge [] u v.
Proof. intros [p [d [[] _]]]. Qed.

Lemma no_cycle_in_empty : ~ has_directed_cycle [].
Proof.
  intros [v Hv]. apply clos_trans_chain in Hv. destruct Hv as [l Hc].
  destruct l as [| x l]; simpl in Hc.
  - now apply no_edge_in_empty in Hc.
  - destruct Hc as [Hc _]. now apply no_edge_in_empty in Hc.
Qed.

Lemma cyclicb_iff processes :
  cyclicb processes = true <-> has_directed_cycle processes.
Proof.
  unfold cyclicb. destruct processes as [| item rest] eqn:Hp.
  - simpl. split; [discriminate |]. intros H. now apply no_cycle_in_empty in H.
  - rewrite <- Hp. replace (Dict.is_empty processes) with false by now subst.
    rewrite <- graph_cycle_iff.
    rewrite <- (CycleFacts.simple_cycles_nonempty _ (build_graph_closed _)).
    rewrite Nat.ltb_lt.
    destruct (DiGraph.simple_cycles (build_graph processes)); simpl.
    + split; [lia | intros H; now elim H].
    + split; [discriminate | lia].
Qed.

Lemma cyclicb_false_iff processes :
  cyclicb processes = false <-> ~ has_directed_cycle processes.
Proof.
  rewrite <- cyclicb_iff. destruct (cyclicb processes); split; intros H;
    try reflexivity; try discriminate.
  exfalso. now apply H.
Qed.

(** C1. [detect_deadlock] answers [True] exactly when the graph with, for
    each process, an edge from its held resource to the process and an edge
    from the process to its requested resource has a directed cycle (a
    self-loop included). So it answers [False] on every acyclic table, [True]
    on every table with a cycle, and [False] on the empty table; it never
    raises. *)
Theorem detect_deadlock_iff_cycle :
  forall processes : store,
  exists b : bool,
    detect_deadlock processes = (Ok b, processes)
    /\ (b = true <-> has_directed_cycle processes)
    /\ (processes <> [] -> ~ has_directed_cycle processes -> b = false)
    /\ (has_directed_cycle processes -> b = true)
    /\ (processes = [] -> b = false).
Proof.
  intros processes. exists (cyclicb processes).
  split; [apply detect_deadlock_run |].
  split; [apply cyclicb_iff |].
  split; [intros _ H; now apply cyclicb_false_iff |].
  split; [apply cyclicb_iff |].
  intros ->. reflexivity.
Qed.

Lemma detect_deadlock_iff_cycle_witness : has_directed_cycle two_cycle.
Proof.
  destruct (detect_deadlock_iff_cycle two_cycle) as [b [Hrun [Hiff _]]].
  apply Hiff. vm_compute in Hrun. now inversion Hrun.
Defined.

(** ** Dictionary facts *)

Module DictFacts.
Import Dict.

Section WithValues.

Context {V : Type}.
Implicit Types (d : Dict.t V) (k : string) (v : V).

Lemma get_some_in d k v : get k d = Some v -> In (k, v) d.
Proof.
  induction d as [| [k' v'] d IH]; simpl; [discriminate |].
  destruct (String.eqb k' k) eqn:Hk.
  - apply String.eqb_eq in Hk. intros H. inversion H. subst. now left.
  - intros H. right. now apply IH.
Qed.

Lemma in_keys d k v : In (k, v) d -> In k (keys d).
Proof. intros H. unfold keys. now apply (in_map fst) in H. Qed.

Lemma in_get d k v : wf d -> In (k, v) d -> get k d = Some v.
Proof.
  unfold wf. induction d as [| [k' v'] d IH]; simpl; intros Hwf Hin.
  - destruct Hin.
  - inversion Hwf as [| x l Hk Hwf']. subst.
    destruct Hin as [Heq | Hin].
    + inversion Heq. subst. now rewrite String.eqb_refl.
    + destruct (String.eqb k' k) eqn:Hk'.
      * apply String.eqb_eq in Hk'. subst. elim Hk. eapply in_keys, Hin.
      * now apply IH.
Qed.

Lemma mem_keys d k : mem k d = true <-> In k (keys d).
Proof.
  unfold mem. induction d as [| [k' v'] d IH]; simpl.
  - split; [discriminate | intros []].
  - destruct (String.eqb k' k) eqn:Hk.
    + apply String.eqb_eq in Hk. split; auto.
    + apply String.eqb_neq in Hk. rewrite IH. split; [auto |].
      intros [H | H]; [contradiction | assumption].
Qed.

Lemma keys_get d k : In k (keys d) -> exists v, get k d = Some v.
Proof.
  intros H. apply mem_keys in H. unfold mem in H.
  destruct (get k d) as [v |]; [now exists v | discriminate].
Qed.

Lemma get_set_same d k v : get k (set k v d) = Some v.
Proof.
  induction d as [| [k' v'] d IH]; simpl.
  - now rewrite String.eqb_refl.
  - destruct (String.eqb k' k) eqn:Hk; simpl; now rewrite Hk.
Qed.

Lemma get_set_other d k k' v : k' <> k -> get k' (set k v d) = get k' d.
Proof.
  intros Hne. induction d as [| [k0 v0] d IH]; simpl.
  - apply String.eqb_neq in Hne. rewrite String.eqb_sym in Hne.
    now rewrite Hne.
  - destruct (String.eqb k0 k) eqn:Hk; simpl.
    + apply String.eqb_eq in Hk. subst k0.
      apply String.eqb_neq in Hne. rewrite String.eqb_sym in Hne.
      now rewrite Hne.
    + now rewrite IH.
Qed.

Lemma keys_set d k v x : In x (keys (set k v d)) <-> x = k \/ In x (keys d).
Proof.
  induction d as [| [k0 v0] d IH]; simpl.
  - split; [intros [H | []]; auto | intros [H | []]; auto].
  - destruct (String.eqb k0 k) eqn:Hk; simpl.
    + apply String.eqb_eq in Hk. subst. intuition auto.
    + rewrite IH. tauto.
Qed.

Lemma wf_set d k v : wf d -> wf (set k v d).
Proof.
  unfold wf. induction d as [| [k0 v0] d IH]; simpl; intros Hwf.
  - constructor; [intros [] | constructor].
  - inversion Hwf as [| x l Hk Hwf']. subst.
    destruct (String.eqb k0 k) eqn:Hk0; simpl.
    + now constructor.
    + constructor; [| now apply IH].
      intros Hin. apply keys_set in Hin. destruct Hin as [-> | Hin].
      * now rewrite String.eqb_refl in Hk0.
      * contradiction.
Qed.

Lemma get_del_other d k k' : k' <> k -> get k' (del k d) = get k' d.
Proof.
  intros Hne. induction d as [| [k0 v0] d IH]; simpl; [reflexivity |].
  destruct (String.eqb k0 k) eqn:Hk; simpl.
  - apply String.eqb_eq in Hk. subst.
    apply String.eqb_neq in Hne. rewrite String.eqb_sym in Hne.
    now rewrite Hne.
  - now rewrite IH.
Qed.

Lemma keys_del_incl d k : incl (keys (del k d)) (keys d).
Proof.
  induction d as [| [k0 v0] d IH]; simpl; [apply incl_refl |].
  destruct (String.eqb k0 k); simpl.
  - apply incl_tl, incl_refl.
  - intros x [<- | Hx]; [now left | right; now apply IH].
Qed.

Lemma length_del d k :
  In k (keys d) -> S (List.length (del k d)) = List.length d.
Proof.
  induction d as [| [k0 v0] d IH]; simpl; [intros [] |].
  destruct (String.eqb k0 k) eqn:Hk; simpl; [reflexivity |].
  apply String.eqb_neq in Hk.
  intros [H | H]; [contradiction | now rewrite IH].
Qed.

Lemma wf_del d k : wf d -> wf (del k d).
Proof.
  unfold wf. induction d as [| [k0 v0] d IH]; simpl; intros Hwf;
    [assumption |].
  inversion Hwf as [| x l Hk Hwf']. subst.
  destruct (String.eqb k0 k); simpl; [assumption |].
  constructor; [| now apply IH].
  intros Hin. apply Hk. now apply (keys_del_incl d k).
Qed.

Lemma not_in_del d k : wf d -> ~ In k (keys (del k d)).
Proof.
  unfold wf. induction d as [| [k0 v0] d IH]; simpl; intros Hwf;
    [intros [] |].
  inversion Hwf as [| x l Hk Hwf']. subst.
  destruct (String.eqb k0 k) eqn:Hk0; simpl.
  - apply String.eqb_eq in Hk0. now subst.
  - apply String.eqb_neq in Hk0. intros [H | H]; [contradiction |].
    now apply IH.
Qed.

(** Deleting a key of a well-formed dict removes the one entry that holds
    it and keeps the others in place. *)
Lemma del_split d k :
  wf d -> In k (keys d) ->
  exists pre v post,
    d = pre ++ (k, v) :: post /\ del k d = pre ++ post /\ ~ In k (keys pre).
Proof.
  unfold wf. induction d as [| [k0 v0] d IH]; simpl; intros Hwf Hin;
    [destruct Hin |].
  inversion Hwf as [| x l Hk Hwf']. subst.
  destruct (String.eqb k0 k) eqn:Hk0.
  - apply String.eqb_eq in Hk0. subst.
    exists [], v0, d. simpl. auto.
  - apply String.eqb_neq in Hk0.
    destruct Hin as [H | Hin]; [contradiction |].
    destruct (IH Hwf' Hin) as [pre [v [post [Hd [Hdel Hpre]]]]].
    exists ((k0, v0) :: pre), v, post. simpl.
    rewrite Hdel. rewrite Hd at 1. repeat split; try reflexivity.
    intros [H | H]; [contradiction | now apply Hpre].
Qed.

End WithValues.

End DictFacts.

(** ** Running the monad *)

Lemma bind_run {A B} (m : M A) (k : A -> M B) s a s' :
  m s = (Ok a, s') -> bind m k s = k a s'.
Proof. unfold bind. now intros ->. Qed.

Lemma get_processes_run s : get_processes s = (Ok s, s).
Proof. reflexivity. Qed.

Ltac run_get :=
  match goal with
  | |- context [bind get_processes ?k ?s] =>
      rewrite (bind_run get_processes k s s s (get_processes_run s));
      cbv beta
  end.

(** ** [min] picks the first element of least key *)

(** The chosen element is the first one of least key: every element before
    it has a strictly larger key, every element after it a key at least as
    large. *)
Lemma first_min_split f : forall rest best,
  exists l1 l2,
    best :: rest = l1 ++ first_min f best rest :: l2
    /\ (forall y, In y l1 -> f (first_min f best rest) < f y)
    /\ (forall y, In y l2 -> f (first_min f best rest) <= f y).
Proof.
  induction rest as [| x rest IH]; intros best; simpl.
  - exists [], []. simpl. repeat split; intros y [].
  - destruct (f x <? f best)%nat eqn:Hlt.
    + apply Nat.ltb_lt in Hlt.
      destruct (IH x) as [l1 [l2 [Heq [H1 H2]]]].
      remember (first_min f x rest) as m eqn:Hm.
      assert (Hmx : f m <= f x).
      { assert (Hin : In x (l1 ++ m :: l2)) by (rewrite <- Heq; now left).
        apply in_app_or in Hin. destruct Hin as [Hin | [Hin | Hin]].
        - apply H1 in Hin. lia.
        - rewrite Hin. lia.
        - now apply H2. }
      exists (best :: l1), l2. simpl. rewrite Heq. repeat split.
      * intros y [<- | Hy]; [lia | now apply H1].
      * assumption.
    + apply Nat.ltb_ge in Hlt.
      destruct (IH best) as [l1 [l2 [Heq [H1 H2]]]].
      remember (first_min f best rest) as m eqn:Hm.
      destruct l1 as [| b l1]; simpl in Heq; inversion Heq as [[Hb Hrest]].
      * exists [], (x :: l2). simpl. repeat split.
        -- intros y [].
        -- intros y [<- | Hy]; [rewrite <- Hb; exact Hlt | now apply H2].
      * exists (best :: x :: l1), l2. simpl. rewrite <- Hb in *.
        split; [reflexivity | split].
        -- intros y [<- | [<- | Hy]].
           ++ apply H1. now left.
           ++ assert (f m < f best) by (apply H1; now left). lia.
           ++ apply H1. now right.
        -- assumption.
Qed.

Lemma first_min_in f rest best : In (first_min f best rest) (best :: rest).
Proof.
  destruct (first_min_split f rest best) as [l1 [l2 [Heq _]]].
  rewrite Heq. apply in_or_app. right. now left.
Qed.

Lemma min_loop_run key f s : forall rest best,
  (forall x, In x rest -> key x s = (Ok (f x), s)) ->
  min_loop key best (f best) rest s = (Ok (first_min f best rest), s).
Proof.
  induction rest as [| x rest IH]; intros best Hkey; simpl.
  - reflexivity.
  - rewrite (bind_run _ _ _ _ _ (Hkey x (or_introl eq_refl))).
    destruct (f x <? f best)%nat; apply IH; intros y Hy; apply Hkey; now right.
Qed.

Lemma py_min_run key f s x rest :
  (forall y, In y (x :: rest) -> key y s = (Ok (f y), s)) ->
  py_min (x :: rest) key s = (Ok (first_min f x rest), s).
Proof.
  intros Hkey. unfold py_min.
  rewrite (bind_run _ _ _ _ _ (Hkey x (or_introl eq_refl))).
  apply min_loop_run. intros y Hy. apply Hkey. now right.
Qed.

Lemma holds_len_run processes x :
  In x (Dict.keys processes) ->
  holds_len x processes = (Ok (holds_length processes x), processes).
Proof.
  intros Hin. apply DictFacts.keys_get in Hin. destruct Hin as [d Hd].
  unfold holds_len, getitem, holds_length, bind, get_processes.
  rewrite Hd. reflexivity.
Qed.

Lemma delitem_run processes k :
  In k (Dict.keys processes) ->
  delitem k processes = (Ok tt, Dict.del k processes).
Proof.
  intros Hin. apply DictFacts.mem_keys in Hin.
  unfold delitem. run_get. now rewrite Hin.
Qed.

Lemma victim_in_keys processes v :
  victim processes = Some v -> In v (Dict.keys processes).
Proof.
  unfold victim. destruct (Dict.keys processes) as [| k rest]; [discriminate |].
  intros H. inversion H. apply first_min_in.
Qed.

Lemma victim_some processes :
  processes <> [] -> exists v, victim processes = Some v.
Proof.
  destruct processes as [| [k d] rest]; [now intros H; elim H |].
  intros _. unfold victim. simpl. eauto.
Qed.

(** ** The three outcomes of [resolve] *)

Lemma resolve_empty :
  resolve [] = (Ok (jsonify [("message", JStr "No processes to resolve")]), []).
Proof. reflexivity. Qed.

Lemma resolve_acyclic processes :
  processes <> [] -> cyclicb processes = false ->
  resolve processes
  = (Ok (jsonify [("resolved", JBool false);
                  ("message", JStr "No deadlock detected")]), processes).
Proof.
  intros Hne Hc. destruct processes as [| item rest]; [now elim Hne |].
  unfold resolve. run_get.
  cbn [Dict.is_empty].
  rewrite (bind_run _ _ _ _ _ (detect_deadlock_run _)), Hc. reflexivity.
Qed.

Lemma resolve_cyclic processes :
  cyclicb processes = true ->
  exists v,
    victim processes = Some v
    /\ resolve processes
       = (Ok (resolved_response v (Dict.del v processes)),
          Dict.del v processes).
Proof.
  intros Hc.
  assert (Hne : processes <> []) by (intros ->; discriminate).
  destruct (victim_some processes Hne) as [v Hv]. exists v. split; [assumption |].
  pose proof (victim_in_keys _ _ Hv) as Hin.
  unfold victim in Hv.
  destruct processes as [| item rest] eqn:Hp; [now elim Hne |]. rewrite <- Hp in *.
  unfold resolve. run_get.
  replace (Dict.is_empty processes) with false by now subst.
  rewrite (bind_run _ _ _ _ _ (detect_deadlock_run _)), Hc.
  run_get.
  destruct (Dict.keys processes) as [| k ks] eqn:Hk; [discriminate |].
  inversion Hv as [Hv']. rewrite <- Hk in Hin.
  rewrite (bind_run _ _ _ _ _
             (py_min_run holds_len (holds_length processes) processes k ks
                (fun y Hy => holds_len_run processes y
                               (eq_ind_r (fun l => In y l) Hy Hk)))).
  rewrite Hv'.
  rewrite (bind_run _ _ _ _ _ (delitem_run processes v Hin)).
  reflexivity.
Qed.

Lemma detect_true_cyclicb processes :
  fst (detect_deadlock processes) = Ok true <-> cyclicb processes = true.
Proof.
  rewrite detect_deadlock_run. simpl. split; [intros H; now inversion H |].
  now intros ->.
Qed.

Lemma detect_false_cyclicb processes :
  fst (detect_deadlock processes) = Ok false <-> cyclicb processes = false.
Proof.
  rewrite detect_deadlock_run. simpl. split; [intros H; now inversion H |].
  now intros ->.
Qed.

Lemma split_at_unique {A} (x : A) : forall a a' b b',
  ~ In x a -> ~ In x a' -> a ++ x :: b = a' ++ x :: b' -> a = a' /\ b = b'.
Proof.
  induction a as [| y a IH]; intros [| y' a'] b b' Ha Ha' Heq; simpl in *.
  - inversion Heq. auto.
  - inversion Heq. subst. elim Ha'. now left.
  - inversion Heq. subst. elim Ha. now left.
  - inversion Heq as [[Hy Hrest]]. subst y'.
    destruct (IH a' b b') as [-> ->]; auto.
Qed.

Lemma keys_app {V} (a b : Dict.t V) :
  Dict.keys (a ++ b) = Dict.keys a ++ Dict.keys b.
Proof. unfold Dict.keys. apply map_app. Qed.

(** The victim, in a well-formed table: the first entry, in iteration
    order, whose held-resource name is shortest. *)
Lemma victim_spec processes v :
  Dict.wf processes -> victim processes = Some v ->
  exists pre d post,
    processes = pre ++ (v, d) :: post
    /\ Dict.del v processes = pre ++ post
    /\ ~ In v (Dict.keys pre)
    /\ (forall p e, In (p, e) processes ->
                    String.length (holds d) <= String.length (holds e))
    /\ (forall p e, In (p, e) pre ->
                    String.length (holds d) < String.length (holds e)).
Proof.
  intros Hwf Hv. pose proof (victim_in_keys _ _ Hv) as Hin.
  destruct (DictFacts.del_split processes v Hwf Hin)
    as [pre [d [post [Hs [Hdel Hpre]]]]].
  exists pre, d, post. repeat split; try assumption.
  - (* least among all *)
    intros p e Hpe. unfold victim in Hv.
    destruct (Dict.keys processes) as [| k ks] eqn:Hk; [discriminate |].
    inversion Hv as [Hv'].
    destruct (first_min_split (holds_length processes) ks k)
      as [l1 [l2 [Heq [H1 H2]]]].
    rewrite Hv' in *.
    assert (Hfv : holds_length processes v = String.length (holds d)).
    { unfold holds_length. rewrite (DictFacts.in_get processes v d Hwf).
      - reflexivity.
      - rewrite Hs. apply in_or_app. right. now left. }
    assert (Hfp : holds_length processes p = String.length (holds e)).
    { unfold holds_length. now rewrite (DictFacts.in_get processes p e Hwf). }
    rewrite <- Hfv, <- Hfp.
    assert (Hp : In p (l1 ++ v :: l2)).
    { rewrite <- Heq, <- Hk. eapply DictFacts.in_keys, Hpe. }
    apply in_app_or in Hp. destruct Hp as [Hp | [<- | Hp]].
    + apply H1 in Hp. lia.
    + lia.
    + now apply H2.
  - (* strictly least among the entries before it *)
    intros p e Hpe. unfold victim in Hv.
    destruct (Dict.keys processes) as [| k ks] eqn:Hk; [discriminate |].
    inversion Hv as [Hv'].
    destruct (first_min_split (holds_length processes) ks k)
      as [l1 [l2 [Heq [H1 H2]]]].
    rewrite Hv' in *.
    assert (Hpin : In (p, e) processes).
    { rewrite Hs. apply in_or_app. now left. }
    assert (Hfv : holds_length processes v = String.length (holds d)).
    { unfold holds_length. rewrite (DictFacts.in_get processes v d Hwf).
      - reflexivity.
      - rewrite Hs. apply in_or_app. right. now left. }
    assert (Hfp : holds_length processes p = String.length (holds e)).
    { unfold holds_length. now rewrite (DictFacts.in_get processes p e Hwf). }
    rewrite <- Hfv, <- Hfp.
    assert (Hl1 : ~ In v l1).
    { intros H. apply H1 in H. lia. }
    assert (Hkeys : Dict.keys pre ++ v :: Dict.keys post = l1 ++ v :: l2).
    { rewrite <- Heq, <- Hk. rewrite Hs at 1. now rewrite keys_app. }
    destruct (split_at_unique v _ _ _ _ Hpre Hl1 Hkeys) as [Hpre_eq _].
    apply H1. rewrite <- Hpre_eq. eapply DictFacts.in_keys, Hpe.
Qed.

(** C2. On a non-empty table with a cycle, the process that one [resolve]
    call removes holds a resource whose name is of least length among all
    processes of the table, and among the processes of that least length it
    is the first in the table's iteration order: every entry before it has
    a strictly longer held-resource name. *)
Theorem resolve_victim_shortest_holds (processes : store) :
  Dict.wf processes ->
  processes <> [] ->
  fst (detect_deadlock processes) = Ok true ->
  exists pre v d post,
    processes = pre ++ (v, d) :: post
    /\ resolve processes
       = (Ok (jsonify [("resolved", JBool true); ("terminated", JStr v);
                       ("processes", JProcesses (pre ++ post))]),
          pre ++ post)
    /\ (forall p e, In (p, e) processes ->
                    String.length (holds d) <= String.length (holds e))
    /\ (forall p e, In (p, e) pre ->
                    String.length (holds d) < String.length (holds e)).
Proof.
  intros Hwf _ Hdet. apply detect_true_cyclicb in Hdet.
  destruct (resolve_cyclic processes Hdet) as [v [Hv Hrun]].
  destruct (victim_spec processes v Hwf Hv)
    as [pre [d [post [Hs [Hdel [_ [Hmin Hfirst]]]]]]].
  exists pre, v, d, post. rewrite Hdel in Hrun. auto.
Qed.

Lemma resolve_victim_shortest_holds_witness :
  exists pre v d post,
    tie_store = pre ++ (v, d) :: post
    /\ resolve tie_store
       = (Ok (jsonify [("resolved", JBool true); ("terminated", JStr v);
                       ("processes", JProcesses (pre ++ post))]),
          pre ++ post)
    /\ (forall p e, In (p, e) tie_store ->
                    String.length (holds d) <= String.length (holds e))
    /\ (forall p e, In (p, e) pre ->
                    String.length (holds d) < String.length (holds e)).
Proof.
  apply (resolve_victim_shortest_holds tie_store).
  - unfold Dict.wf, tie_store. simpl.
    repeat constructor; simpl; intuition discriminate.
  - discriminate.
  - vm_compute. reflexivity.
Defined.

Example ex_tie_store :
  fst (resolve tie_store)
  = Ok (jsonify [("resolved", JBool true); ("terminated", JStr "P2");
                 ("processes",
                  JProcesses [("P1", mkDetails "R10" "R2");
                              ("P3", mkDetails "R3" "R10")])]).
Proof. reflexivity. Qed.

(** C3. On a table with a cycle, one [resolve] call removes exactly one
    process, whose name was a key before the call: the table is one entry
    shorter, the removed name is no longer a key, every other entry is
    unchanged and in place, and the response reports the resolution with the
    name of the removed process. *)
Theorem resolve_removes_exactly_one (processes : store) :
  Dict.wf processes ->
  fst (detect_deadlock processes) = Ok true ->
  exists v d pre post processes',
    resolve processes
    = (Ok (jsonify [("resolved", JBool true); ("terminated", JStr v);
                    ("processes", JProcesses processes')]),
       processes')
    /\ processes = pre ++ (v, d) :: post
    /\ processes' = pre ++ post
    /\ In v (Dict.keys processes)
    /\ ~ In v (Dict.keys processes')
    /\ S (List.length processes') = List.length processes
    /\ (forall k, k <> v -> Dict.get k processes' = Dict.get k processes).
Proof.
  intros Hwf Hdet. apply detect_true_cyclicb in Hdet.
  destruct (resolve_cyclic processes Hdet) as [v [Hv Hrun]].
  pose proof (victim_in_keys _ _ Hv) as Hin.
  destruct (victim_spec processes v Hwf Hv)
    as [pre [d [post [Hs [Hdel _]]]]].
  exists v, d, pre, post, (Dict.del v processes).
  split; [exact Hrun |].
  split; [exact Hs |].
  split; [exact Hdel |].
  split; [exact Hin |].
  split; [now apply DictFacts.not_in_del |].
  split; [now apply DictFacts.length_del |].
  intros k Hk. now apply DictFacts.get_del_other.
Qed.

Lemma two_cycle_wf : Dict.wf two_cycle.
Proof.
  unfold Dict.wf, two_cycle. simpl.
  repeat constructor; simpl; intuition discriminate.
Qed.

Lemma resolve_removes_exactly_one_witness :
  exists v d pre post processes',
    resolve two_cycle
    = (Ok (jsonify [("resolved", JBool true); ("terminated", JStr v);
                    ("processes", JProcesses processes')]),
       processes')
    /\ two_cycle = pre ++ (v, d) :: post
    /\ processes' = pre ++ post
    /\ In v (Dict.keys two_cycle)
    /\ ~ In v (Dict.keys processes')
    /\ S (List.length processes') = List.length two_cycle
    /\ (forall k, k <> v -> Dict.get k processes' = Dict.get k two_cycle).
Proof.
  apply (resolve_removes_exactly_one two_cycle).
  - exact two_cycle_wf.
  - vm_compute. reflexivity.
Defined.

(** C7. [resolve] on the empty table answers with the message that there
    are no processes to resolve, reports no resolution, and leaves the table
    empty. *)
Theorem resolve_empty_store :
  exists r : response,
    resolve Dict.empty = (Ok r, Dict.empty)
    /\ body r = [("message", JStr "No processes to resolve")]
    /\ status r = 200
    /\ reports_resolved r = false
    /\ field "terminated" r = None.
Proof.
  exists (jsonify [("message", JStr "No processes to resolve")]).
  repeat split.
Qed.

(** C10. [detect_deadlock], and the [/api/detect] handler around it, leave
    the table as it was, on every table; and [resolve] on a non-empty table
    without a cycle reports no resolution and leaves the table as it was. *)
Theorem detect_and_acyclic_resolve_frame :
  (forall processes : store,
      snd (detect_deadlock processes) = processes
      /\ snd (detect processes) = processes)
  /\ (forall processes : store,
         processes <> [] ->
         fst (detect_deadlock processes) = Ok false ->
         exists r : response,
           resolve processes = (Ok r, processes)
           /\ body r = [("resolved", JBool false);
                        ("message", JStr "No deadlock detected")]
           /\ reports_resolved r = false).
Proof.
  split.
  - intros processes. split.
    + now rewrite detect_deadlock_run.
    + unfold detect. now rewrite (bind_run _ _ _ _ _ (detect_deadlock_run _)).
  - intros processes Hne Hdet. apply detect_false_cyclicb in Hdet.
    eexists. split; [now apply resolve_acyclic |]. split; reflexivity.
Qed.

Lemma detect_and_acyclic_resolve_frame_witness :
  snd (detect open_chain) = open_chain
  /\ exists r : response,
       resolve open_chain = (Ok r, open_chain)
       /\ body r = [("resolved", JBool false);
                    ("message", JStr "No deadlock detected")]
       /\ reports_resolved r = false.
Proof.
  split.
  - apply (proj1 detect_and_acyclic_resolve_frame open_chain).
  - apply (proj2 detect_and_acyclic_resolve_frame open_chain).
    + discriminate.
    + vm_compute. reflexivity.
Defined.

(** ** Repeated resolution *)

Lemma resolve_total processes :
  exists r, resolve processes = (Ok r, resolve_state processes).
Proof.
  unfold resolve_state. destruct (cyclicb processes) eqn:Hc.
  - destruct (resolve_cyclic processes Hc) as [v [Hv Hrun]].
    rewrite Hv. eauto.
  - destruct processes as [| item rest].
    + eexists. apply resolve_empty.
    + eexists. apply resolve_acyclic; [discriminate | assumption].
Qed.

Lemma resolve_times_run : forall k processes,
  resolve_times k processes = (Ok tt, Nat.iter k resolve_state processes).
Proof.
  induction k as [| k IH]; intros processes.
  - reflexivity.
  - cbn [resolve_times]. destruct (resolve_total processes) as [r Hr].
    rewrite (bind_run _ _ _ _ _ Hr), IH. f_equal.
    rewrite <- Nat.iter_succ_r. reflexivity.
Qed.

Lemma resolve_state_acyclic processes :
  cyclicb processes = false -> resolve_state processes = processes.
Proof. unfold resolve_state. now intros ->. Qed.

Lemma resolve_state_length processes :
  cyclicb processes = true ->
  S (List.length (resolve_state processes)) = List.length processes.
Proof.
  intros Hc. unfold resolve_state. rewrite Hc.
  destruct (resolve_cyclic processes Hc) as [v [Hv _]]. rewrite Hv.
  apply DictFacts.length_del. now apply victim_in_keys.
Qed.

Lemma iter_resolve_acyclic processes :
  cyclicb processes = false ->
  forall j, Nat.iter j resolve_state processes = processes.
Proof.
  intros Hc. induction j as [| j IH]; simpl.
  - reflexivity.
  - rewrite IH. now apply resolve_state_acyclic.
Qed.

Lemma iter_resolve_shift j processes :
  Nat.iter (S j) resolve_state processes
  = Nat.iter j resolve_state (resolve_state processes).
Proof. now rewrite Nat.iter_succ_r. Qed.

(** After as many calls as the table has entries, no cycle is left. *)
Lemma resolve_reaches_acyclic : forall n processes,
  List.length processes <= n ->
  exists k, k <= n /\
    forall j, k <= j ->
      cyclicb (Nat.iter j resolve_state processes) = false.
Proof.
  induction n as [| n IH]; intros processes Hlen.
  - exists 0. split; [lia |]. intros j _.
    destruct processes; [| simpl in Hlen; lia].
    now rewrite iter_resolve_acyclic.
  - destruct (cyclicb processes) eqn:Hc.
    + pose proof (resolve_state_length processes Hc) as Hl.
      destruct (IH (resolve_state processes)) as [k [Hk Hafter]]; [lia |].
      exists (S k). split; [lia |]. intros j Hj.
      destruct j as [| j]; [lia |].
      rewrite iter_resolve_shift. apply Hafter. lia.
    + exists 0. split; [lia |]. intros j _.
      now rewrite iter_resolve_acyclic.
Qed.

Lemma rag_edge_holds processes p d :
  In (p, d) processes -> rag_edge processes (holds d) p.
Proof. intros H. exists p, d. auto. Qed.

Lemma rag_edge_requests processes p d :
  In (p, d) processes -> rag_edge processes p (requests d).
Proof. intros H. exists p, d. auto. Qed.

Lemma last_cons_shift {A} : forall (rest : list A) (a b : A),
  last (b :: rest) a = last rest b.
Proof.
  induction rest as [| c rest IH]; intros a b.
  - reflexivity.
  - change (last (b :: c :: rest) a) with (last (c :: rest) a).
    now rewrite (IH a c), (IH b c).
Qed.

Lemma linked_walk processes : forall rest first,
  linked (first :: rest) ->
  (forall x, In x (first :: rest) -> In x processes) ->
  clos_trans string (rag_edge processes)
    (holds (snd first)) (requests (snd (last rest first))).
Proof.
  induction rest as [| b rest IH]; intros [p d] Hl Hin.
  - simpl. apply t_trans with p; apply t_step.
    + apply rag_edge_holds. apply Hin. now left.
    + apply rag_edge_requests. apply Hin. now left.
  - destruct Hl as [Hreq Hl]. simpl in Hreq.
    apply t_trans with (holds (snd b)).
    + rewrite <- Hreq. apply t_trans with p; apply t_step.
      * apply rag_edge_holds. apply Hin. now left.
      * apply rag_edge_requests. apply Hin. now left.
    + rewrite last_cons_shift.
      apply IH; [assumption |]. intros x Hx. apply Hin. now right.
Qed.

Lemma forms_cycle_cyclic n processes :
  forms_cycle n processes -> has_directed_cycle processes.
Proof.
  intros [_ [first [rest [Hperm [Hl Hclose]]]]].
  exists (holds (snd first)). rewrite <- Hclose at 2.
  apply linked_walk; [assumption |].
  intros x Hx. eapply Permutation_in; eassumption.
Qed.

(** C4. On a table whose processes form a cycle of [n] processes, repeated
    [resolve] calls reach a table on which [detect_deadlock] answers [False]
    after at most [n] calls (and the answer stays [False] from then on). The
    table does have a cycle to begin with. *)
Theorem resolve_clears_cycle_within_n (n : nat) (processes : store) :
  forms_cycle n processes ->
  fst (detect_deadlock processes) = Ok true
  /\ exists k, k <= n /\
       forall j, k <= j ->
         exists processes',
           resolve_times j processes = (Ok tt, processes')
           /\ fst (detect_deadlock processes') = Ok false.
Proof.
  intros Hcyc. split.
  - apply detect_true_cyclicb, cyclicb_iff. eapply forms_cycle_cyclic, Hcyc.
  - destruct Hcyc as [Hlen _].
    destruct (resolve_reaches_acyclic n processes) as [k [Hk Hafter]];
      [lia |].
    exists k. split; [assumption |]. intros j Hj.
    exists (Nat.iter j resolve_state processes).
    split; [apply resolve_times_run |].
    apply detect_false_cyclicb. now apply Hafter.
Qed.

Lemma two_cycle_forms_cycle : forms_cycle 2 two_cycle.
Proof.
  split; [reflexivity |].
  exists ("P1", mkDetails "R1" "R2"), [("P2", mkDetails "R2" "R1")].
  split; [apply Permutation_refl |]. simpl. auto.
Qed.

Lemma resolve_clears_cycle_within_n_witness :
  fst (detect_deadlock two_cycle) = Ok true
  /\ exists k, k <= 2 /\
       forall j, k <= j ->
         exists processes',
           resolve_times j two_cycle = (Ok tt, processes')
           /\ fst (detect_deadlock processes') = Ok false.
Proof.
  apply (resolve_clears_cycle_within_n 2 two_cycle).
  exact two_cycle_forms_cycle.
Defined.

Example ex_two_cycle_one_call :
  resolve_times 1 two_cycle = (Ok tt, [("P2", mkDetails "R2" "R1")])
  /\ fst (detect_deadlock [("P2", mkDetails "R2" "R1")]) = Ok false.
Proof. split; reflexivity. Qed.

(** ** A victim outside every cycle *)

Lemma rag_edge_in_list processes u v :
  rag_edge processes u v -> In (u, v) (rag_edges processes).
Proof.
  intros [p [d [Hin Hc]]]. unfold rag_edges. apply in_flat_map.
  exists (p, d). split; [assumption |].
  destruct Hc as [[-> ->] | [-> ->]]; simpl; auto.
Qed.

Lemma outsider_store_wf : Dict.wf outsider_store.
Proof.
  unfold Dict.wf, outsider_store. simpl.
  repeat constructor; simpl; intuition discriminate.
Qed.

Lemma outsider_on_no_cycle :
  ~ clos_trans string (rag_edge outsider_store) "X" "X".
Proof.
  intros H. apply clos_trans_chain in H. destruct H as [l Hc].
  destruct l as [| y l]; simpl in Hc.
  - apply rag_edge_in_list in Hc. simpl in Hc. intuition congruence.
  - destruct Hc as [Hxy Hc]. apply rag_edge_in_list in Hxy. simpl in Hxy.
    assert (Hy : y = "Q") by intuition congruence.
    subst y. destruct l as [| z l]; simpl in Hc.
    + apply rag_edge_in_list in Hc. simpl in Hc. intuition congruence.
    + destruct Hc as [Hc _]. apply rag_edge_in_list in Hc. simpl in Hc.
      intuition congruence.
Qed.

(** C9. The victim of [resolve] on a table with a cycle is least, by the
    length of the held-resource name, among all processes of the table,
    whether they are on a cycle or not. So there is a table with a cycle on
    which the removed process is on no cycle and the table still has a cycle
    after the call. *)
Theorem resolve_victim_may_be_outside_cycle :
  (forall processes : store,
      Dict.wf processes ->
      fst (detect_deadlock processes) = Ok true ->
      exists v d,
        In (v, d) processes
        /\ resolve processes
           = (Ok (jsonify [("resolved", JBool true); ("terminated", JStr v);
                           ("processes", JProcesses (Dict.del v processes))]),
              Dict.del v processes)
        /\ forall p e, In (p, e) processes ->
                       String.length (holds d) <= String.length (holds e))
  /\ (exists (processes : store) (v : string),
         Dict.wf processes
         /\ fst (detect_deadlock processes) = Ok true
         /\ field "terminated"
              (match fst (resolve processes) with
               | Ok r => r
               | Raise _ => jsonify []
               end) = Some (JStr v)
         /\ snd (resolve processes) = Dict.del v processes
         /\ ~ clos_trans string (rag_edge processes) v v
         /\ fst (detect_deadlock (snd (resolve processes))) = Ok true).
Proof.
  split.
  - intros processes Hwf Hdet. apply detect_true_cyclicb in Hdet.
    destruct (resolve_cyclic processes Hdet) as [v [Hv Hrun]].
    destruct (victim_spec processes v Hwf Hv)
      as [pre [d [post [Hs [_ [_ [Hmin _]]]]]]].
    exists v, d. split; [| split; assumption].
    rewrite Hs. apply in_or_app. right. now left.
  - exists outsider_store, "X".
    split; [exact outsider_store_wf |].
    split; [reflexivity |].
    split; [reflexivity |].
    split; [reflexivity |].
    split; [exact outsider_on_no_cycle | reflexivity].
Qed.

Lemma resolve_victim_may_be_outside_cycle_witness :
  exists v d,
    In (v, d) outsider_store
    /\ resolve outsider_store
       = (Ok (jsonify [("resolved", JBool true); ("terminated", JStr v);
                       ("processes",
                        JProcesses (Dict.del v outsider_store))]),
          Dict.del v outsider_store)
    /\ forall p e, In (p, e) outsider_store ->
                   String.length (holds d) <= String.length (holds e).
Proof.
  apply (proj1 resolve_victim_may_be_outside_cycle outsider_store).
  - exact outsider_store_wf.
  - vm_compute. reflexivity.
Defined.

(** With two such processes besides a cycle of two, two calls leave the
    cycle as it was, and the third one breaks it. *)
Example ex_outsiders_removed_first :
  let s := [("P1", mkDetails "R1" "R2"); ("P2", mkDetails "R2" "R1");
            ("X", mkDetails "R" "Q"); ("Y", mkDetails "S" "T")] in
  snd (resolve_times 2 s) = two_cycle
  /\ fst (detect_deadlock (snd (resolve_times 2 s))) = Ok true
  /\ fst (detect_deadlock (snd (resolve_times 3 s))) = Ok false.
Proof. repeat split. Qed.

(** ** Adding a process and reading the table *)


Lemma truthy_some s : s <> "" -> truthy (Some s) = true.
Proof.
  intros Hs. unfold truthy. apply String.eqb_neq in Hs. now rewrite Hs.
Qed.



Lemma post_valid data processes n h r :
  Dict.get "process_name" data = Some n ->
  Dict.get "holds_resource" data = Some h ->
  Dict.get "requests_resource" data = Some r ->
  n <> "" -> h <> "" -> r <> "" ->
  handle_processes POST data processes
  = (Ok (jsonify [("success", JBool true); ("process", JStr n)]),
     Dict.set n (mkDetails h r) processes).
Proof.
  intros Hn Hh Hr Hn' Hh' Hr'. unfold handle_processes, py_all.
  cbn [forallb]. rewrite Hn, Hh, Hr.
  rewrite !truthy_some by assumption. reflexivity.
Qed.

(** On a JSON object the handler of the route is [handle_processes]; on any
    other body it raises before it looks at the table. *)
Lemma handle_processes_request_object method data (s : store) :
  handle_processes_request method (Parsed (JObject data)) s
  = handle_processes method data s.
Proof. destruct method; reflexivity. Qed.

Lemma handle_processes_request_other type_name (s : store) :
  handle_processes_request POST (Parsed (JOther type_name)) s
  = (Raise (no_attribute_get type_name), s).
Proof. reflexivity. Qed.

Lemma handle_processes_request_unparsed e (s : store) :
  handle_processes_request POST (Unparsed e) s = (Raise e, s).
Proof. reflexivity. Qed.




(** C6. Round trip: after a valid add (name, held and requested resource
    all non-empty), on any table, reading the table with GET returns the
    table with that process under its name, with the held and requested
    resources as they were given. *)
Theorem add_then_read_roundtrip
    (data : request_json) (processes : store) (n h r : string) :
  Dict.get "process_name" data = Some n ->
  Dict.get "holds_resource" data = Some h ->
  Dict.get "requests_resource" data = Some r ->
  n <> "" -> h <> "" -> r <> "" ->
  exists ok processes',
    handle_processes POST data processes = (Ok ok, processes')
    /\ forall data' : request_json,
         exists listing,
           handle_processes GET data' processes'
           = (Ok (mkResponse [("processes", JProcesses listing)] 200),
              processes')
           /\ Dict.get n listing = Some (mkDetails h r)
           /\ (Dict.wf processes ->
               forall d, In (n, d) listing -> d = mkDetails h r).
Proof.
  intros Hn Hh Hr Hn' Hh' Hr'.
  exists (jsonify [("success", JBool true); ("process", JStr n)]),
         (Dict.set n (mkDetails h r) processes).
  split; [now apply post_valid |].
  intros data'. exists (Dict.set n (mkDetails h r) processes).
  split; [reflexivity |].
  split; [apply DictFacts.get_set_same |].
  intros Hwf d Hin.
  apply (DictFacts.in_get _ _ _ (DictFacts.wf_set _ n (mkDetails h r) Hwf))
    in Hin.
  rewrite DictFacts.get_set_same in Hin. now inversion Hin.
Qed.

Lemma add_then_read_roundtrip_witness :
  exists ok processes',
    handle_processes POST add_p1 open_chain = (Ok ok, processes')
    /\ forall data' : request_json,
         exists listing,
           handle_processes GET data' processes'
           = (Ok (mkResponse [("processes", JProcesses listing)] 200),
              processes')
           /\ Dict.get "P1" listing = Some (mkDetails "R1" "R2")
           /\ (Dict.wf open_chain ->
               forall d, In ("P1", d) listing -> d = mkDetails "R1" "R2").
Proof.
  apply (add_then_read_roundtrip add_p1 open_chain "P1" "R1" "R2");
    try reflexivity; discriminate.
Defined.

(** ** The chat handler *)

Section ChatFacts.

Variable json_dumps : store -> string.
Variable generate_content : string -> result string.

Let chat' := chat json_dumps generate_content.
Let prompt' := prompt_of json_dumps.

Lemma chat_missing data processes :
  missing (Dict.get "message" data) ->
  chat' data processes
  = (Ok (mkResponse [("error", JStr "Message is required")] 400), processes).
Proof.
  intros Hm. unfold chat', chat, try_except.
  destruct Hm as [Hm | Hm]; rewrite Hm; reflexivity.
Qed.

Lemma chat_answer data processes m text :
  Dict.get "message" data = Some m -> m <> "" ->
  generate_content (prompt' processes m) = Ok text ->
  chat' data processes
  = (Ok (mkResponse [("response", JStr text)] 200), processes).
Proof.
  intros Hm Hne Hgen. unfold chat', chat, try_except. rewrite Hm.
  rewrite (truthy_some m Hne). cbn [negb].
  unfold bind, get_processes, call_model. fold prompt'. rewrite Hgen.
  reflexivity.
Qed.

Lemma chat_failure data processes m e :
  Dict.get "message" data = Some m -> m <> "" ->
  generate_content (prompt' processes m) = Raise e ->
  chat' data processes
  = (Ok (mkResponse [("error", JStr (str_of_exn e));
                     ("fallback", JStr fallback)] 500), processes).
Proof.
  intros Hm Hne Hgen. unfold chat', chat, try_except. rewrite Hm.
  rewrite (truthy_some m Hne). cbn [negb].
  unfold bind, get_processes, call_model. fold prompt'. rewrite Hgen.
  reflexivity.
Qed.

End ChatFacts.

(** The handler on a JSON object: 400 on a missing or empty message, 500
    with the error text and the fallback exactly when the text generator
    raises, 200 with its text otherwise. *)
Lemma chat_object_spec
    (json_dumps : store -> string) (generate_content : string -> result string)
    (data : request_json) (processes : store) :
  let message := Dict.get "message" data in
  let prompt := prompt_of json_dumps processes in
  exists resp : response,
    chat json_dumps generate_content data processes = (Ok resp, processes)
    /\ (missing message ->
        resp = mkResponse [("error", JStr "Message is required")] 400)
    /\ (status resp = 500 <->
        exists m e, message = Some m /\ m <> ""
                    /\ generate_content (prompt m) = Raise e)
    /\ (forall m e,
           message = Some m -> m <> "" ->
           generate_content (prompt m) = Raise e ->
           resp = mkResponse [("error", JStr (str_of_exn e));
                              ("fallback", JStr fallback)] 500)
    /\ (forall m text,
           message = Some m -> m <> "" ->
           generate_content (prompt m) = Ok text ->
           resp = mkResponse [("response", JStr text)] 200).
Proof.
  cbv zeta.
  destruct (Dict.get "message" data) as [m |] eqn:Hm.
  - destruct (string_dec m "") as [-> | Hne].
    + eexists. split.
      * apply chat_missing. rewrite Hm. right. reflexivity.
      * split; [reflexivity |]. split; [| split].
        -- split; [discriminate |].
           intros [m' [e [Heq [Hm' _]]]]. inversion Heq. now subst.
        -- intros m' e Heq Hm'. inversion Heq. now subst.
        -- intros m' text Heq Hm'. inversion Heq. now subst.
    + destruct (generate_content (prompt_of json_dumps processes m))
        as [text | e] eqn:Hgen.
      * eexists. split; [now apply (chat_answer _ _ _ _ m text) |].
        split; [intros [H | H]; [discriminate | inversion H; contradiction] |].
        split; [| split].
        -- split; [discriminate |].
           intros [m' [e [Heq [_ Hfail]]]]. inversion Heq. subst m'.
           rewrite Hgen in Hfail. discriminate.
        -- intros m' e Heq _ Hfail. inversion Heq. subst m'.
           rewrite Hgen in Hfail. discriminate.
        -- intros m' text' Heq _ Hok. inversion Heq. subst m'.
           rewrite Hgen in Hok. now inversion Hok.
      * eexists. split; [now apply (chat_failure _ _ _ _ m e) |].
        split; [intros [H | H]; [discriminate | inversion H; contradiction] |].
        split; [| split].
        -- split; [| reflexivity]. intros _. exists m, e. auto.
        -- intros m' e' Heq _ Hfail. inversion Heq. subst m'.
           rewrite Hgen in Hfail. now inversion Hfail.
        -- intros m' text Heq _ Hok. inversion Heq. subst m'.
           rewrite Hgen in Hok. discriminate.
  - eexists. split.
    + apply chat_missing. rewrite Hm. left. reflexivity.
    + split; [reflexivity |]. split; [| split].
      * split; [discriminate |]. intros [m' [e [Heq _]]]. discriminate.
      * intros m' e Heq. discriminate.
      * intros m' text Heq. discriminate.
Qed.

Lemma chat_request_object json_dumps generate_content data (s : store) :
  chat_request json_dumps generate_content (Parsed (JObject data)) s
  = chat json_dumps generate_content data s.
Proof. reflexivity. Qed.

(** C8, as the code has it. A chat request whose body is a JSON object
    with [message] absent or empty gets the 400 answer, not a 500. The 500
    answer, with the error text and the fixed fallback sentence, is given
    exactly when something raises inside the handler's [try]: the call of
    the text generator fails, or the body is not a JSON object, so that
    [request.get_json()] or [data.get] raises. The table is never
    changed. *)
Theorem chat_request_status_spec
    (json_dumps : store -> string) (generate_content : string -> result string)
    (body : json_body) (processes : store) :
  let prompt := prompt_of json_dumps processes in
  exists resp : response,
    chat_request json_dumps generate_content body processes
    = (Ok resp, processes)
    /\ (forall data,
           body = Parsed (JObject data) ->
           missing (Dict.get "message" data) ->
           resp = mkResponse [("error", JStr "Message is required")] 400)
    /\ (status resp = 500 <->
        (forall data, body <> Parsed (JObject data))
        \/ exists data m e,
             body = Parsed (JObject data)
             /\ Dict.get "message" data = Some m /\ m <> ""
             /\ generate_content (prompt m) = Raise e)
    /\ (status resp = 500 ->
        exists e, resp = mkResponse [("error", JStr (str_of_exn e));
                                     ("fallback", JStr fallback)] 500)
    /\ (forall data m e,
           body = Parsed (JObject data) ->
           Dict.get "message" data = Some m -> m <> "" ->
           generate_content (prompt m) = Raise e ->
           resp = mkResponse [("error", JStr (str_of_exn e));
                              ("fallback", JStr fallback)] 500)
    /\ (forall type_name,
           body = Parsed (JOther type_name) ->
           resp = mkResponse
                    [("error", JStr (str_of_exn (no_attribute_get type_name)));
                     ("fallback", JStr fallback)] 500)
    /\ (forall e,
           body = Unparsed e ->
           resp = mkResponse [("error", JStr (str_of_exn e));
                              ("fallback", JStr fallback)] 500)
    /\ (forall data m text,
           body = Parsed (JObject data) ->
           Dict.get "message" data = Some m -> m <> "" ->
           generate_content (prompt m) = Ok text ->
           resp = mkResponse [("response", JStr text)] 200).
Proof.
  cbv zeta. destruct body as [[data | ty] | e].
  - destruct (chat_object_spec json_dumps generate_content data processes)
      as [resp [Hrun [Hmiss [H500 [Hfail Hok]]]]].
    exists resp. rewrite chat_request_object.
    split; [exact Hrun |].
    split; [intros d Heq; inversion Heq; subst; exact Hmiss |].
    split; [| split; [| split; [| split; [| split]]]].
    + rewrite H500. split.
      * intros [m [e [Hm [Hne Hgen]]]]. right. exists data, m, e. auto.
      * intros [Hno | [d [m [e [Heq [Hm [Hne Hgen]]]]]]].
        -- now elim (Hno data).
        -- inversion Heq. subst d. exists m, e. auto.
    + intros Hs. apply H500 in Hs. destruct Hs as [m [e [Hm [Hne Hgen]]]].
      exists e. now apply (Hfail m e).
    + intros d m e Heq. inversion Heq. subst d. apply Hfail.
    + intros ty Heq. discriminate.
    + intros e Heq. discriminate.
    + intros d m text Heq. inversion Heq. subst d. apply Hok.
  - eexists. split; [reflexivity |].
    split; [intros d Heq; discriminate |].
    split; [| split; [| split; [| split; [| split]]]].
    + split; [| reflexivity]. intros _. left. intros d Heq. discriminate.
    + intros _. eexists. reflexivity.
    + intros d m e Heq. discriminate.
    + intros ty' Heq. inversion Heq. reflexivity.
    + intros e Heq. discriminate.
    + intros d m text Heq. discriminate.
  - eexists. split; [reflexivity |].
    split; [intros d Heq; discriminate |].
    split; [| split; [| split; [| split; [| split]]]].
    + split; [| reflexivity]. intros _. left. intros d Heq. discriminate.
    + intros _. eexists. reflexivity.
    + intros d m e' Heq. discriminate.
    + intros ty Heq. discriminate.
    + intros e' Heq. inversion Heq. reflexivity.
    + intros d m text Heq. discriminate.
Qed.

Lemma chat_request_status_spec_witness :
  chat_request dumps_stub generator_down (Parsed (JObject ask_why)) two_cycle
  = (Ok (mkResponse [("error", JStr "503 Service Unavailable");
                     ("fallback", JStr fallback)] 500), two_cycle)
  /\ chat_request dumps_stub generator_down (Parsed (JObject [])) two_cycle
     = (Ok (mkResponse [("error", JStr "Message is required")] 400),
        two_cycle).
Proof.
  split.
  - destruct (chat_request_status_spec dumps_stub generator_down
                (Parsed (JObject ask_why)) two_cycle)
      as [resp [Hrun [_ [_ [_ [Hfail _]]]]]].
    rewrite Hrun. f_equal. f_equal.
    apply (Hfail ask_why "Why is P1 waiting?"
             (UpstreamFailure "503 Service Unavailable"));
      [reflexivity | reflexivity | discriminate | reflexivity].
  - destruct (chat_request_status_spec dumps_stub generator_down
                (Parsed (JObject [])) two_cycle)
      as [resp [Hrun [Hmiss _]]].
    rewrite Hrun. f_equal. f_equal. apply (Hmiss []); [reflexivity |].
    left. reflexivity.
Defined.

(** A chat request whose body is the JSON list [[]], with a text generator
    that always answers: the message is missing, yet the answer is the 500
    with the fallback, and no call of the generator has failed. *)
Lemma chat_list_body_gets_500 :
  chat_request dumps_stub generator_up list_body two_cycle
  = (Ok (mkResponse [("error", JStr "'list' object has no attribute 'get'");
                     ("fallback", JStr fallback)] 500), two_cycle)
  /\ (forall prompt, generator_up prompt = Ok "No deadlock.").
Proof. split; [reflexivity | intros prompt; reflexivity]. Qed.

(** ** The table stays a dictionary

    The table starts empty and no handler ever gives it two entries with the
    same key, so the well-formedness assumed above holds of every table the
    handlers can reach. *)

Lemma wf_empty : Dict.wf (@Dict.empty details).
Proof. constructor. Qed.

Lemma handle_processes_wf method data processes :
  Dict.wf processes ->
  Dict.wf (snd (handle_processes method data processes)).
Proof.
  intros Hwf. destruct method; simpl.
  - assumption.
  - unfold py_all. cbn [forallb].
    destruct (Dict.get "process_name" data) as [n |];
      destruct (Dict.get "holds_resource" data) as [h |];
      destruct (Dict.get "requests_resource" data) as [r |];
      simpl; rewrite ?andb_false_r; simpl; try assumption.
    destruct (negb (String.eqb n "") && (negb (String.eqb h "")
              && (negb (String.eqb r "") && true))); simpl;
      [now apply DictFacts.wf_set | assumption].
  - apply wf_empty.
Qed.

Lemma resolve_wf processes :
  Dict.wf processes -> Dict.wf (snd (resolve processes)).
Proof.
  intros Hwf. destruct (resolve_total processes) as [r Hr]. rewrite Hr.
  simpl. unfold resolve_state. destruct (cyclicb processes); [| assumption].
  destruct (victim processes); [now apply DictFacts.wf_del | assumption].
Qed.

Lemma resolve_never_raises processes :
  exists r, fst (resolve processes) = Ok r.
Proof.
  destruct (resolve_total processes) as [r Hr]. exists r. now rewrite Hr.
Qed.

(** * Further properties of the handlers *)

(** ** Detection looks at the entries only *)

Lemma rag_edge_incl (s s' : store) :
  incl s s' -> forall u v, rag_edge s u v -> rag_edge s' u v.
Proof.
  intros Hincl u v [p [d [Hin Hc]]]. exists p, d. split; [| assumption].
  now apply Hincl.
Qed.

Lemma has_directed_cycle_incl (s s' : store) :
  incl s s' -> has_directed_cycle s -> has_directed_cycle s'.
Proof.
  intros Hincl [v Hv]. exists v. revert Hv. apply clos_trans_incl.
  now apply rag_edge_incl.
Qed.

Lemma cyclicb_incl (s s' : store) :
  incl s s' -> cyclicb s = true -> cyclicb s' = true.
Proof.
  intros Hincl Hc. apply cyclicb_iff. apply cyclicb_iff in Hc.
  eapply has_directed_cycle_incl; eassumption.
Qed.

Lemma cyclicb_same_entries (s s' : store) :
  incl s s' -> incl s' s -> cyclicb s = cyclicb s'.
Proof.
  intros H1 H2. destruct (cyclicb s) eqn:Hs.
  - symmetry. eapply cyclicb_incl; eassumption.
  - destruct (cyclicb s') eqn:Hs'; [| reflexivity].
    rewrite (cyclicb_incl s' s H2 Hs') in Hs. discriminate.
Qed.

(** X1. The answer of [detect_deadlock] does not depend on the order of
    the table: two tables with the same entries in different orders get the
    same answer. *)
Theorem detect_deadlock_order_irrelevant (s s' : store) :
  Permutation s s' ->
  fst (detect_deadlock s) = fst (detect_deadlock s')
  /\ fst (detect s) = fst (detect s').
Proof.
  intros Hperm.
  assert (Heq : cyclicb s = cyclicb s').
  { apply cyclicb_same_entries; intros x Hx.
    - eapply Permutation_in; eassumption.
    - eapply Permutation_in; [apply Permutation_sym |]; eassumption. }
  unfold detect.
  rewrite (bind_run _ _ _ _ _ (detect_deadlock_run s)).
  rewrite (bind_run _ _ _ _ _ (detect_deadlock_run s')).
  rewrite !detect_deadlock_run. simpl. now rewrite Heq.
Qed.

Lemma detect_deadlock_order_irrelevant_witness :
  fst (detect_deadlock two_cycle) = fst (detect_deadlock (rev two_cycle))
  /\ fst (detect two_cycle) = fst (detect (rev two_cycle)).
Proof.
  apply (detect_deadlock_order_irrelevant two_cycle (rev two_cycle)).
  apply Permutation_rev.
Defined.

Lemma set_new_key {V} (d : Dict.t V) k v :
  ~ In k (Dict.keys d) -> Dict.set k v d = d ++ [(k, v)].
Proof.
  induction d as [| [k0 v0] d IH]; simpl; intros Hk; [reflexivity |].
  destruct (String.eqb k0 k) eqn:Hk0.
  - apply String.eqb_eq in Hk0. elim Hk. now left.
  - rewrite IH; [reflexivity |]. intros H. apply Hk. now right.
Qed.

Lemma del_incl {V} (d : Dict.t V) k : incl (Dict.del k d) d.
Proof.
  induction d as [| [k0 v0] d IH]; simpl; [apply incl_refl |].
  destruct (String.eqb k0 k).
  - apply incl_tl, incl_refl.
  - intros x [<- | Hx]; [now left | right; now apply IH].
Qed.

(** X2. A deadlock stays detected when a process is added: on a table
    where [detect_deadlock] answers [True], a valid add of a process under a
    new name leaves a table where it still answers [True]. *)
Theorem detect_deadlock_monotone
    (data : request_json) (s : store) (n h r : string) :
  Dict.get "process_name" data = Some n ->
  Dict.get "holds_resource" data = Some h ->
  Dict.get "requests_resource" data = Some r ->
  n <> "" -> h <> "" -> r <> "" ->
  ~ In n (Dict.keys s) ->
  fst (detect_deadlock s) = Ok true ->
  fst (detect_deadlock (snd (handle_processes POST data s))) = Ok true.
Proof.
  intros Hn Hh Hr Hn' Hh' Hr' Hnew Hd.
  rewrite (post_valid data s n h r Hn Hh Hr Hn' Hh' Hr'). simpl.
  rewrite (set_new_key s n _ Hnew).
  apply detect_true_cyclicb. apply detect_true_cyclicb in Hd.
  apply (cyclicb_incl s); [| assumption]. now apply incl_appl, incl_refl.
Qed.

Lemma detect_deadlock_monotone_witness :
  fst (detect_deadlock (snd (handle_processes POST add_p3 two_cycle)))
  = Ok true.
Proof.
  apply (detect_deadlock_monotone add_p3 two_cycle "P3" "R3" "R4");
    try reflexivity; try discriminate.
  simpl. intuition discriminate.
Defined.

(** X3. A process that requests the resource it holds is a deadlock by
    itself: whatever else the table has, [detect_deadlock] answers [True]. *)
Theorem self_request_is_deadlock (s : store) (p : string) (d : details) :
  In (p, d) s ->
  holds d = requests d ->
  fst (detect_deadlock s) = Ok true.
Proof.
  intros Hin Heq. apply detect_true_cyclicb, cyclicb_iff.
  exists p. apply t_trans with (requests d); apply t_step.
  - now apply rag_edge_requests.
  - rewrite <- Heq. now apply rag_edge_holds.
Qed.

Lemma self_request_is_deadlock_witness :
  fst (detect_deadlock [("P1", mkDetails "R1" "R2");
                        ("P2", mkDetails "R5" "R5")]) = Ok true.
Proof.
  apply (self_request_is_deadlock _ "P2" (mkDetails "R5" "R5")).
  - right. left. reflexivity.
  - reflexivity.
Defined.

(** ** Ordered resources *)

Lemma rank_along_walk (R : string -> string -> Prop) (f : string -> nat) :
  (forall u v, R u v -> f u < f v) ->
  forall u v, clos_trans string R u v -> f u < f v.
Proof.
  intros Hstep u v H. induction H as [u v H | u w v _ IH1 _ IH2].
  - now apply Hstep.
  - lia.
Qed.

Lemma get_none_not_key {V} (d : Dict.t V) k :
  ~ In k (Dict.keys d) -> Dict.get k d = None.
Proof.
  intros Hk. destruct (Dict.get k d) as [v |] eqn:Hg; [| reflexivity].
  elim Hk. eapply DictFacts.in_keys, DictFacts.get_some_in, Hg.
Qed.

Lemma holds_is_resource (s : store) p d :
  In (p, d) s -> In (holds d) (resource_names s).
Proof.
  intros Hin. unfold resource_names. apply in_flat_map.
  exists (p, d). split; [assumption | now left].
Qed.

Lemma requests_is_resource (s : store) p d :
  In (p, d) s -> In (requests d) (resource_names s).
Proof.
  intros Hin. unfold resource_names. apply in_flat_map.
  exists (p, d). split; [assumption | right; now left].
Qed.

Lemma resource_not_key (s : store) x :
  names_apart s -> In x (resource_names s) -> ~ In x (Dict.keys s).
Proof. intros Hap Hx Hk. now apply (Hap x). Qed.

Lemma node_rank_increases rank (s : store) :
  Dict.wf s -> names_apart s -> respects_order rank s ->
  forall u v, rag_edge s u v -> node_rank rank s u < node_rank rank s v.
Proof.
  intros Hwf Hap Hord u v [p [d [Hin Hc]]].
  assert (Hp : node_rank rank s p = S (2 * rank (holds d))).
  { unfold node_rank. now rewrite (DictFacts.in_get s p d Hwf Hin). }
  destruct Hc as [[-> ->] | [-> ->]].
  - rewrite Hp. unfold node_rank.
    rewrite get_none_not_key; [lia |].
    apply resource_not_key; [assumption |]. eapply holds_is_resource, Hin.
  - rewrite Hp. unfold node_rank.
    rewrite get_none_not_key.
    + specialize (Hord p d Hin). lia.
    + apply resource_not_key; [assumption |].
      eapply requests_is_resource, Hin.
Qed.

Lemma respects_order_acyclic (rank : string -> nat) (s : store) :
  Dict.wf s -> names_apart s -> respects_order rank s -> cyclicb s = false.
Proof.
  intros Hwf Hap Hord. apply cyclicb_false_iff. intros [v Hv].
  apply (rank_along_walk _ (node_rank rank s)
           (node_rank_increases rank s Hwf Hap Hord)) in Hv.
  lia.
Qed.

(** X4. Ordered resources prevent deadlock: when no name is both a process
    and a resource, and the resources can be ranked so that every process
    requests a resource ranked above the one it holds, [detect_deadlock]
    answers [False]. *)
Theorem ordered_resources_no_deadlock (rank : string -> nat) (s : store) :
  Dict.wf s ->
  names_apart s ->
  respects_order rank s ->
  fst (detect_deadlock s) = Ok false.
Proof.
  intros Hwf Hap Hord.
  apply detect_false_cyclicb. now apply (respects_order_acyclic rank).
Qed.

Lemma open_chain_wf : Dict.wf open_chain.
Proof.
  unfold Dict.wf, open_chain. simpl.
  repeat constructor; simpl; intuition discriminate.
Qed.

Lemma ordered_resources_no_deadlock_witness :
  fst (detect_deadlock open_chain) = Ok false.
Proof.
  apply (ordered_resources_no_deadlock order_r123 open_chain).
  - exact open_chain_wf.
  - intros x Hx Hr. simpl in Hx, Hr.
    destruct Hx as [<- | [<- | []]]; intuition discriminate.
  - intros p d Hin. simpl in Hin.
    destruct Hin as [Heq | [Heq | []]]; inversion Heq; subst;
      vm_compute; lia.
Defined.

(** ** [resolve] always answers *)

Lemma resolve_state_incl (s : store) : incl (resolve_state s) s.
Proof.
  unfold resolve_state. destruct (cyclicb s); [| apply incl_refl].
  destruct (victim s); [apply del_incl | apply incl_refl].
Qed.

Lemma iter_resolve_incl (s : store) :
  forall j, incl (Nat.iter j resolve_state s) s.
Proof.
  induction j as [| j IH]; simpl; [apply incl_refl |].
  eapply incl_tran; [apply resolve_state_incl | exact IH].
Qed.

(** X5. [resolve] answers on every table, without raising (no [KeyError]
    from the lookups and the [del], no [ValueError] from [min]): it reports
    a resolution exactly when [detect_deadlock] answers [True] on the table,
    it only ever takes entries out, and when it reports none the table is
    unchanged. *)
Theorem resolve_always_answers (s : store) :
  exists (r : response) (s' : store),
    resolve s = (Ok r, s')
    /\ status r = 200
    /\ (reports_resolved r = true <-> fst (detect_deadlock s) = Ok true)
    /\ incl s' s
    /\ (reports_resolved r = false -> s' = s).
Proof.
  destruct (cyclicb s) eqn:Hc.
  - destruct (resolve_cyclic s Hc) as [v [Hv Hrun]].
    exists (resolved_response v (Dict.del v s)), (Dict.del v s).
    split; [exact Hrun |]. split; [reflexivity |].
    split; [| split].
    + split; [intros _; now apply detect_true_cyclicb | reflexivity].
    + apply del_incl.
    + discriminate.
  - assert (Hd : fst (detect_deadlock s) <> Ok true).
    { rewrite detect_deadlock_run. simpl. rewrite Hc. discriminate. }
    destruct s as [| item rest].
    + eexists. exists []. split; [apply resolve_empty |].
      split; [reflexivity |]. split; [| split].
      * split; [discriminate | intros H; now elim Hd].
      * apply incl_refl.
      * reflexivity.
    + eexists. exists (item :: rest).
      split; [apply resolve_acyclic; [discriminate | assumption] |].
      split; [reflexivity |]. split; [| split].
      * split; [discriminate | intros H; now elim Hd].
      * apply incl_refl.
      * reflexivity.
Qed.

(** X6. Calling [resolve] as many times as the table has processes always
    ends on a table where [detect_deadlock] answers [False], whatever the
    table; what is left are entries of the table it started from. *)
Theorem resolve_loop_terminates (s : store) :
  exists s' : store,
    resolve_times (List.length s) s = (Ok tt, s')
    /\ fst (detect_deadlock s') = Ok false
    /\ incl s' s.
Proof.
  exists (Nat.iter (List.length s) resolve_state s).
  split; [apply resolve_times_run |]. split.
  - apply detect_false_cyclicb.
    destruct (resolve_reaches_acyclic (List.length s) s (le_n _))
      as [k [Hk Hafter]].
    now apply Hafter.
  - apply iter_resolve_incl.
Qed.

(** ** Adding twice, clearing *)

Lemma set_set_same {V} (d : Dict.t V) k v :
  Dict.set k v (Dict.set k v d) = Dict.set k v d.
Proof.
  induction d as [| [k0 v0] d IH]; simpl.
  - now rewrite String.eqb_refl.
  - destruct (String.eqb k0 k) eqn:Hk; simpl; rewrite Hk.
    + reflexivity.
    + now rewrite IH.
Qed.

(** X7. Adding is idempotent: sending the same add request a second time
    gets the same answer and leaves the table as the first one left it,
    whether the request is valid or not. *)
Theorem add_twice_same (data : request_json) (s : store) :
  handle_processes POST data (snd (handle_processes POST data s))
  = handle_processes POST data s.
Proof.
  unfold handle_processes, py_all. cbn [forallb].
  destruct (Dict.get "process_name" data) as [n |];
    destruct (Dict.get "holds_resource" data) as [h |];
    destruct (Dict.get "requests_resource" data) as [r |];
    simpl; rewrite ?andb_false_r; simpl; try reflexivity.
  destruct (negb (String.eqb n "") && (negb (String.eqb h "")
            && (negb (String.eqb r "") && true))); simpl; [| reflexivity].
  unfold setitem, bind, get_processes, put_processes, ret. simpl.
  now rewrite set_set_same.
Qed.

(** ** The drawn graph *)

Module ColorFacts.
Import ColorGraph.

Lemma colour_edges_add_node u c g : edges (add_node u c g) = edges g.
Proof. reflexivity. Qed.

Lemma edges_touch_node u g : edges (touch_node u g) = edges g.
Proof. unfold touch_node. now destruct (Dict.mem u (nodes g)). Qed.

Lemma colour_edges_add_edge u v g e :
  In e (edges (add_edge u v g)) <-> e = (u, v) \/ In e (edges g).
Proof.
  unfold add_edge.
  destruct (has_edge (touch_node v (touch_node u g)) u v) eqn:He; simpl.
  - rewrite !edges_touch_node. unfold has_edge in He.
    rewrite !edges_touch_node in He. apply existsb_exists in He.
    destruct He as [e' [Hin Heq]]. apply edge_eqb_eq in Heq. subst e'.
    split; [auto | intros [-> | H]; assumption].
  - rewrite in_app_iff, !edges_touch_node. simpl. split.
    + intros [H | [H | []]]; auto.
    + intros [-> | H]; auto.
Qed.

Lemma touch_present u g :
  In u (Dict.keys (nodes g)) -> touch_node u g = g.
Proof.
  intros H. apply DictFacts.mem_keys in H. unfold touch_node. now rewrite H.
Qed.

Lemma nodes_add_edge_present u v g :
  In u (Dict.keys (nodes g)) -> In v (Dict.keys (nodes g)) ->
  nodes (add_edge u v g) = nodes g.
Proof.
  intros Hu Hv. unfold add_edge.
  rewrite (touch_present u g Hu), (touch_present v g Hv).
  now destruct (has_edge g u v).
Qed.

End ColorFacts.

Lemma image_step_nodes (G : ColorGraph.t) (item : string * details) :
  ColorGraph.nodes (image_step G item) = node_step (ColorGraph.nodes G) item.
Proof.
  destruct item as [p d]. unfold image_step, node_step.
  rewrite !ColorFacts.nodes_add_edge_present; try reflexivity; simpl;
    rewrite ?ColorFacts.nodes_add_edge_present; simpl;
    rewrite ?DictFacts.keys_set; auto.
Qed.

Lemma image_step_edges (G : ColorGraph.t) (p : string) (d : details) e :
  In e (ColorGraph.edges (image_step G (p, d)))
  <-> e = (p, requests d) \/ e = (holds d, p) \/ In e (ColorGraph.edges G).
Proof.
  unfold image_step. rewrite !ColorFacts.colour_edges_add_edge. simpl. tauto.
Qed.

Lemma rag_image_graph_fold (s : store) :
  rag_image_graph s = fold_left image_step s ColorGraph.empty.
Proof. unfold rag_image_graph, Dict.items. f_equal. Qed.

Lemma fold_image_nodes (l : store) : forall G,
  ColorGraph.nodes (fold_left image_step l G)
  = fold_left node_step l (ColorGraph.nodes G).
Proof.
  induction l as [| item l IH]; intros G; simpl; [reflexivity |].
  now rewrite IH, image_step_nodes.
Qed.

Lemma fold_image_edges (l : store) : forall G u v,
  In (u, v) (ColorGraph.edges (fold_left image_step l G))
  <-> In (u, v) (ColorGraph.edges G) \/ rag_edge l u v.
Proof.
  induction l as [| [p d] l IH]; intros G u v; cbn [fold_left].
  - split; [auto | intros [H | [p [d [[] _]]]]; assumption].
  - rewrite IH, image_step_edges. unfold rag_edge. split.
    + intros [[Heq | [Heq | Hin]] | [q [e [Hin Hc]]]].
      * inversion Heq; subst. right. exists p, d. simpl. auto.
      * inversion Heq; subst. right. exists p, d. simpl. auto.
      * auto.
      * right. exists q, e. simpl. auto.
    + intros [Hin | [q [e [[Heq | Hin] Hc]]]].
      * auto.
      * inversion Heq; subst q e. left.
        destruct Hc as [[-> ->] | [-> ->]]; auto.
      * right. exists q, e. auto.
Qed.

(** The names of a table: its process names and its resource names. *)
Lemma fold_node_keys (l : store) : forall ns x,
  In x (Dict.keys (fold_left node_step l ns))
  <-> In x (Dict.keys ns) \/ In x (Dict.keys l) \/ In x (resource_names l).
Proof.
  induction l as [| [p d] l IH]; intros ns x; cbn [fold_left].
  - simpl. tauto.
  - rewrite IH. unfold node_step. rewrite !DictFacts.keys_set.
    unfold resource_names. simpl. fold (resource_names l).
    intuition auto.
Qed.

Lemma fold_graph_nodes (l : store) : forall g x,
  In x (DiGraph.nodes (fold_left graph_step l g))
  <-> In x (DiGraph.nodes g) \/ In x (Dict.keys l) \/ In x (resource_names l).
Proof.
  induction l as [| [p d] l IH]; intros g x; cbn [fold_left].
  - simpl. tauto.
  - rewrite IH. unfold graph_step. rewrite !GraphFacts.nodes_add_edge.
    unfold resource_names. simpl. fold (resource_names l).
    intuition auto.
Qed.

(** X8. The graph that is drawn is the graph that is searched for cycles:
    [generate_rag_image] and [detect_deadlock] build graphs with the same
    nodes and the same edges, for every table. *)
Theorem drawn_graph_is_searched_graph (s : store) :
  (forall u v,
      In (u, v) (ColorGraph.edges (rag_image_graph s))
      <-> In (u, v) (DiGraph.edges (build_graph s)))
  /\ (forall x,
         In x (Dict.keys (ColorGraph.nodes (rag_image_graph s)))
         <-> In x (DiGraph.nodes (build_graph s))).
Proof.
  split.
  - intros u v. rewrite build_graph_edges, rag_image_graph_fold.
    rewrite fold_image_edges. simpl. tauto.
  - intros x. rewrite rag_image_graph_fold, fold_image_nodes, fold_node_keys.
    rewrite build_graph_fold, fold_graph_nodes. simpl. tauto.
Qed.

(** ** The colours of the nodes *)

Lemma in_set {V} (d : Dict.t V) k v x a :
  In (x, a) (Dict.set k v d) -> (x, a) = (k, v) \/ In (x, a) d.
Proof.
  induction d as [| [k0 v0] d IH]; simpl.
  - intros [H | []]. left. now symmetry.
  - destruct (String.eqb k0 k) eqn:Hk; simpl.
    + apply String.eqb_eq in Hk. subst k0.
      intros [H | H]; [left; now symmetry | auto].
    + intros [H | H]; [auto |]. destruct (IH H); auto.
Qed.

Lemma two_coloured_step ns item :
  two_coloured ns -> two_coloured (node_step ns item).
Proof.
  destruct item as [p d]. intros Hns x a Hin. unfold node_step in Hin.
  apply in_set in Hin. destruct Hin as [Heq | Hin]; [inversion Heq; auto |].
  apply in_set in Hin. destruct Hin as [Heq | Hin]; [inversion Heq; auto |].
  apply in_set in Hin. destruct Hin as [Heq | Hin]; [inversion Heq; auto |].
  now apply (Hns x a).
Qed.

Lemma two_coloured_fold (l : store) : forall ns,
  two_coloured ns -> two_coloured (fold_left node_step l ns).
Proof.
  induction l as [| item l IH]; intros ns Hns; cbn [fold_left];
    [assumption |].
  apply IH. now apply two_coloured_step.
Qed.

Lemma two_coloured_image (s : store) :
  two_coloured (ColorGraph.nodes (rag_image_graph s)).
Proof.
  rewrite rag_image_graph_fold, fold_image_nodes.
  apply two_coloured_fold. intros x a [].
Qed.

Lemma node_colors_run (ns : Dict.t (option string)) (s : store) :
  two_coloured ns -> node_colors ns s = (Ok (map colour_of ns), s).
Proof.
  induction ns as [| [x a] ns IH]; intros Hns; cbn [node_colors map].
  - reflexivity.
  - assert (Ha : exists c, a = Some c).
    { destruct (Hns x a (or_introl eq_refl)) as [-> | ->]; eauto. }
    destruct Ha as [c ->].
    rewrite (bind_run _ _ _ _ _
               (IH (fun y b H => Hns y b (or_intror H)))).
    reflexivity.
Qed.

Lemma get_node_step_resource ns p d x :
  x = holds d \/ x = requests d ->
  Dict.get x (node_step ns (p, d)) = Some (Some emerald).
Proof.
  intros Hx. unfold node_step.
  destruct (string_dec x (requests d)) as [-> | Hr].
  - apply DictFacts.get_set_same.
  - rewrite DictFacts.get_set_other by assumption.
    destruct Hx as [-> | ->]; [| contradiction].
    apply DictFacts.get_set_same.
Qed.

Lemma get_node_step_process ns p d :
  p <> holds d -> p <> requests d ->
  Dict.get p (node_step ns (p, d)) = Some (Some indigo).
Proof.
  intros Hh Hr. unfold node_step.
  rewrite !DictFacts.get_set_other by assumption.
  apply DictFacts.get_set_same.
Qed.

Lemma get_node_step_other ns p d x :
  x <> p -> x <> holds d -> x <> requests d ->
  Dict.get x (node_step ns (p, d)) = Dict.get x ns.
Proof.
  intros Hp Hh Hr. unfold node_step.
  now rewrite !DictFacts.get_set_other by assumption.
Qed.

Lemma fold_node_untouched (l : store) : forall ns x,
  ~ In x (Dict.keys l) -> ~ In x (resource_names l) ->
  Dict.get x (fold_left node_step l ns) = Dict.get x ns.
Proof.
  induction l as [| [p d] l IH]; intros ns x Hk Hr; cbn [fold_left];
    [reflexivity |].
  simpl in Hk. unfold resource_names in Hr. simpl in Hr.
  fold (resource_names l) in Hr.
  rewrite IH by tauto.
  apply get_node_step_other; intros ->; tauto.
Qed.

Lemma fold_node_colours (l : store) : forall ns x,
  (In x (resource_names l) -> ~ In x (Dict.keys l) ->
   Dict.get x (fold_left node_step l ns) = Some (Some emerald))
  /\ (In x (Dict.keys l) -> ~ In x (resource_names l) ->
      Dict.get x (fold_left node_step l ns) = Some (Some indigo)).
Proof.
  induction l as [| [p d] l IH]; intros ns x; cbn [fold_left].
  - split; intros [].
  - unfold resource_names. simpl. fold (resource_names l).
    destruct (IH (node_step ns (p, d)) x) as [IHr IHp].
    split.
    + intros Hres Hkey.
      destruct (In_dec string_dec x (resource_names l)) as [Hin | Hnin].
      * apply IHr; tauto.
      * rewrite fold_node_untouched by tauto.
        apply get_node_step_resource.
        destruct Hres as [<- | [<- | Hres]]; auto. contradiction.
    + intros Hkey Hres.
      destruct (In_dec string_dec x (Dict.keys l)) as [Hin | Hnin].
      * apply IHp; tauto.
      * rewrite fold_node_untouched by tauto.
        destruct Hkey as [<- | Hkey]; [| contradiction].
        apply get_node_step_process; intros Heq; apply Hres; auto.
Qed.

(** X9. In the drawn graph, a name that is a resource (held or requested
    by some process) and not a process is emerald, a name that is a process
    and not a resource is indigo, and every node has one of these two
    colours. *)
Theorem node_colours (s : store) :
  (forall x, In x (resource_names s) -> ~ In x (Dict.keys s) ->
             Dict.get x (ColorGraph.nodes (rag_image_graph s))
             = Some (Some emerald))
  /\ (forall x, In x (Dict.keys s) -> ~ In x (resource_names s) ->
                Dict.get x (ColorGraph.nodes (rag_image_graph s))
                = Some (Some indigo))
  /\ (forall x a, In (x, a) (ColorGraph.nodes (rag_image_graph s)) ->
                  a = Some indigo \/ a = Some emerald).
Proof.
  rewrite rag_image_graph_fold, fold_image_nodes.
  split; [| split].
  - intros x. apply (fold_node_colours s (ColorGraph.nodes ColorGraph.empty) x).
  - intros x. apply (fold_node_colours s (ColorGraph.nodes ColorGraph.empty) x).
  - apply two_coloured_fold. intros x a [].
Qed.

Lemma node_colours_witness :
  Dict.get "R2" (ColorGraph.nodes (rag_image_graph two_cycle))
  = Some (Some emerald)
  /\ Dict.get "P2" (ColorGraph.nodes (rag_image_graph two_cycle))
     = Some (Some indigo).
Proof.
  split.
  - apply (proj1 (node_colours two_cycle)).
    + simpl. auto.
    + simpl. intuition discriminate.
  - apply (proj1 (proj2 (node_colours two_cycle))).
    + simpl. auto.
    + simpl. intuition discriminate.
Defined.

(** ** [/api/visualize] *)

Lemma generate_rag_image_run draw (s : store) :
  generate_rag_image draw s = (draw (rag_image_graph s) (drawn_colours s), s).
Proof.
  unfold generate_rag_image. run_get.
  rewrite (bind_run _ _ _ _ _
             (node_colors_run _ s (two_coloured_image s))).
  reflexivity.
Qed.

Lemma visualize_run draw (s : store) :
  visualize draw s
  = match s with
    | [] => (Ok (mkResponse [("error", JStr "No processes to visualize")] 400),
             s)
    | _ :: _ =>
        match draw (rag_image_graph s) (drawn_colours s) with
        | Ok image => (Ok (mkResponse [("image", JStr image)] 200), s)
        | Raise e => (Raise e, s)
        end
    end.
Proof.
  destruct s as [| item rest]; [reflexivity |].
  remember (item :: rest) as s eqn:Hs.
  unfold visualize. run_get.
  replace (Dict.is_empty s) with false by now subst.
  unfold bind. rewrite generate_rag_image_run.
  now destruct (draw (rag_image_graph s) (drawn_colours s)).
Qed.

Lemma visualize_frame draw (s : store) : snd (visualize draw s) = s.
Proof.
  rewrite visualize_run. destruct s; [reflexivity |].
  now destruct (draw _ _).
Qed.

(** X10. [/api/visualize] answers the 400 error on the empty table. On any
    other table the colour lookup never raises: every node has a colour,
    indigo or emerald, and what happens next is up to the drawing. When it
    returns an image the answer is 200 with that image; when it raises, the
    exception escapes the handler, which has no [try]. The table is
    unchanged in every case. *)
Theorem visualize_spec
    (draw : ColorGraph.t -> list string -> result string) (s : store) :
  snd (visualize draw s) = s
  /\ (s = [] ->
      visualize draw s
      = (Ok (mkResponse [("error", JStr "No processes to visualize")] 400), s))
  /\ (s <> [] ->
      exists colors,
        List.length colors
        = List.length (ColorGraph.nodes (rag_image_graph s))
        /\ (forall c, In c colors -> c = indigo \/ c = emerald)
        /\ (forall image,
               draw (rag_image_graph s) colors = Ok image ->
               visualize draw s
               = (Ok (mkResponse [("image", JStr image)] 200), s))
        /\ (forall e,
               draw (rag_image_graph s) colors = Raise e ->
               visualize draw s = (Raise e, s))).
Proof.
  split; [| split].
  - apply visualize_frame.
  - intros ->. reflexivity.
  - intros Hne. destruct s as [| item rest]; [now elim Hne |].
    exists (drawn_colours (item :: rest)).
    split; [apply length_map |]. split; [| split].
    + intros c Hc. apply in_map_iff in Hc. destruct Hc as [[x a] [<- Hin]].
      destruct (two_coloured_image _ x a Hin) as [-> | ->]; auto.
    + intros image Hr. rewrite visualize_run. cbv iota. now rewrite Hr.
    + intros e Hr. rewrite visualize_run. cbv iota. now rewrite Hr.
Qed.

Lemma visualize_spec_witness :
  fst (visualize draw_strict two_cycle)
  = Ok (mkResponse [("image", JStr "iVBORw0KGgo=")] 200)
  /\ visualize draw_strict dollar_store
     = (Raise (ValueError "ParseFatalException: Expected end of text"),
        dollar_store).
Proof.
  split.
  - destruct (proj2 (proj2 (visualize_spec draw_strict two_cycle)))
      as [colors [_ [_ [Himg _]]]]; [discriminate |].
    rewrite (Himg "iVBORw0KGgo="); reflexivity.
  - destruct (proj2 (proj2 (visualize_spec draw_strict dollar_store)))
      as [colors [_ [_ [_ Hexn]]]]; [discriminate |].
    apply Hexn. reflexivity.
Defined.

(** ** Runs of requests *)

Lemma handle_processes_ok method data (s : store) :
  exists r, handle_processes method data s
            = (Ok r, snd (handle_processes method data s)).
Proof.
  destruct method; simpl; try (eexists; reflexivity).
  unfold py_all. cbn [forallb].
  destruct (Dict.get "process_name" data) as [n |];
    destruct (Dict.get "holds_resource" data) as [h |];
    destruct (Dict.get "requests_resource" data) as [r |];
    simpl; rewrite ?andb_false_r; simpl; try (eexists; reflexivity).
  destruct (negb (String.eqb n "") && (negb (String.eqb h "")
            && (negb (String.eqb r "") && true))); simpl;
    try (eexists; reflexivity).
Qed.

Lemma handle_processes_named method data (s : store) :
  all_named s -> all_named (snd (handle_processes method data s)).
Proof.
  intros Hs. destruct method; simpl.
  - assumption.
  - unfold py_all. cbn [forallb].
    destruct (Dict.get "process_name" data) as [n |];
      destruct (Dict.get "holds_resource" data) as [h |];
      destruct (Dict.get "requests_resource" data) as [r |];
      simpl; rewrite ?andb_false_r; simpl; try assumption.
    destruct (String.eqb n "") eqn:Hn; simpl; [assumption |].
    destruct (String.eqb h "") eqn:Hh; simpl; [assumption |].
    destruct (String.eqb r "") eqn:Hr; simpl; [assumption |].
    apply String.eqb_neq in Hn, Hh, Hr.
    intros p d Hin. apply in_set in Hin. destruct Hin as [Heq | Hin].
    + inversion Heq. subst. simpl. auto.
    + now apply (Hs p d).
  - intros p d [].
Qed.

Lemma chat_request_total json_dumps generate_content body (s : store) :
  exists r, chat_request json_dumps generate_content body s = (Ok r, s).
Proof.
  destruct body as [[data | ty] | e]; try (eexists; reflexivity).
  rewrite chat_request_object.
  destruct (chat_object_spec json_dumps generate_content data s)
    as [r [Hr _]].
  now exists r.
Qed.

Section RouteFacts.

Variable json_dumps : store -> string.
Variable generate_content : string -> result string.
Variable draw : ColorGraph.t -> list string -> result string.

Let route' := route json_dumps generate_content draw.
Let serve' := serve json_dumps generate_content draw.


Lemma route_keeps (r : request) (s : store) :
  (all_named s -> all_named (snd (route' r s)))
  /\ (Dict.wf s -> Dict.wf (snd (route' r s)))
  /\ (forall e, fst (route' r s) = Raise e -> snd (route' r s) = s).
Proof.
  unfold route', route.
  destruct r as [method [[data | ty] | e'] | | | | body].
  - rewrite handle_processes_request_object. split; [| split].
    + apply handle_processes_named.
    + apply handle_processes_wf.
    + destruct (handle_processes_ok method data s) as [resp ->].
      intros e H. discriminate.
  - destruct method; simpl; (split; [| split]);
      try (intros; assumption); try (intros; reflexivity);
      try (intros e H; discriminate);
      try (intros _ p d []); intros _; constructor.
  - destruct method; simpl; (split; [| split]);
      try (intros; assumption); try (intros; reflexivity);
      try (intros e H; discriminate);
      try (intros _ p d []); intros _; constructor.
  - unfold detect. rewrite (bind_run _ _ _ _ _ (detect_deadlock_run s)).
    simpl. auto.
  - rewrite (visualize_frame draw s). auto.
  - destruct (resolve_total s) as [resp Hr]. rewrite Hr. simpl.
    split; [| split].
    + intros Hs p d Hin. apply (Hs p d). now apply (resolve_state_incl s).
    + intros Hwf. pose proof (resolve_wf s Hwf) as H. now rewrite Hr in H.
    + intros e H. discriminate.
  - destruct (chat_request_total json_dumps generate_content body s)
      as [resp ->]. simpl. auto.
Qed.

Lemma serve_keeps : forall (rs : list request) (s : store),
  List.length (fst (serve' rs s)) = List.length rs
  /\ (all_named s -> all_named (snd (serve' rs s)))
  /\ (Dict.wf s -> Dict.wf (snd (serve' rs s))).
Proof.
  induction rs as [| r rs IH]; intros s.
  - simpl. auto.
  - unfold serve'. cbn [serve]. fold route'.
    destruct (route_keeps r s) as [Hn1 [Hw1 _]].
    destruct (route' r s) as [out s1]. simpl in Hn1, Hw1.
    fold serve'. destruct (IH s1) as [Hlen [Hn2 Hw2]].
    destruct (serve' rs s1) as [outs s2]. simpl in *.
    split; [now rewrite Hlen | split; auto].
Qed.

End RouteFacts.



(** X12. The table never holds a nameless entry: if every entry has a
    non-empty name, held resource and requested resource, this stays so
    after any run of requests, whatever their bodies and whether or not a
    handler raises on the way; in particular it holds of every table
    reached from the empty one. *)
Theorem entries_stay_named
    (json_dumps : store -> string) (generate_content : string -> result string)
    (draw : ColorGraph.t -> list string -> result string)
    (rs : list request) (s : store) :
  all_named s ->
  all_named (snd (serve json_dumps generate_content draw rs s)).
Proof.
  intros Hs.
  now apply (serve_keeps json_dumps generate_content draw rs s).
Qed.

Lemma entries_stay_named_witness :
  all_named (snd (serve dumps_stub generator_down draw_strict sample_run [])).
Proof.
  apply (entries_stay_named dumps_stub generator_down draw_strict
           sample_run []).
  intros p d [].
Defined.

(** ** A clean cycle is broken by one call *)

Lemma linked_closed : forall rest first t,
  linked (first :: rest) ->
  requests (snd (last rest first)) = t ->
  linked_to (first :: rest) t.
Proof.
  induction rest as [| b rest IH]; intros a t Hl Hlast.
  - simpl in *. auto.
  - destruct Hl as [Hab Hl]. rewrite last_cons_shift in Hlast.
    split; [exact Hab |]. now apply IH.
Qed.

Lemma next_held_app A B t :
  next_held (A ++ B) t = next_held A (next_held B t).
Proof. now destruct A. Qed.

Lemma linked_to_app : forall A B t,
  linked_to (A ++ B) t <-> linked_to A (next_held B t) /\ linked_to B t.
Proof.
  induction A as [| a A IH]; intros B t; simpl.
  - tauto.
  - rewrite IH, next_held_app. tauto.
Qed.

(** A closed row can be cut at any entry: the entries after it, then the
    entries before it, form a row that ends at what it holds. *)
Lemma linked_rotate A e B :
  linked_to (A ++ e :: B) (next_held (A ++ e :: B) (held e)) ->
  linked_to (B ++ A) (held e).
Proof.
  intros H. apply linked_to_app in H. destruct H as [HA HB].
  simpl in HA. destruct HB as [_ HB].
  apply linked_to_app. split; [| exact HA].
  rewrite next_held_app in HB. exact HB.
Qed.

Lemma next_held_in C t : In (next_held C t) (map held C ++ [t]).
Proof. destruct C; simpl; auto. Qed.

Lemma requests_in_row : forall C t e,
  linked_to C t -> In e C -> In (requests (snd e)) (map held C ++ [t]).
Proof.
  induction C as [| c C IH]; intros t e Hl Hin; [destruct Hin |].
  destruct Hl as [Hc Hl]. simpl. right. destruct Hin as [<- | Hin].
  - rewrite Hc. apply next_held_in.
  - now apply IH.
Qed.

Lemma index_of_tail x y l :
  x <> y -> index_of x (y :: l) = S (index_of x l).
Proof.
  intros Hne. simpl. apply String.eqb_neq in Hne. now rewrite Hne.
Qed.

(** Along a row with pairwise distinct resources, positions increase from
    what a process holds to what it requests. *)
Lemma row_positions : forall C t e,
  linked_to C t ->
  NoDup (map held C ++ [t]) ->
  In e C ->
  index_of (held e) (map held C ++ [t])
  < index_of (requests (snd e)) (map held C ++ [t]).
Proof.
  induction C as [| c C IH]; intros t e Hl Hnd Hin; [destruct Hin |].
  simpl in Hnd. inversion Hnd as [| x l Hc Hnd']. subst.
  pose proof (requests_in_row (c :: C) t e Hl Hin) as Hreq.
  destruct Hl as [Hlc Hl]. simpl in Hreq.
  destruct Hin as [<- | Hin].
  - cbn [map app]. rewrite Hlc.
    assert (Hne : next_held C t <> held c).
    { intros Heq. apply Hc. rewrite <- Heq. apply next_held_in. }
    rewrite (index_of_tail _ _ _ Hne). simpl. rewrite String.eqb_refl. lia.
  - cbn [map app].
    assert (Hh : held e <> held c).
    { intros Heq. apply Hc. rewrite <- Heq. apply in_or_app. left.
      now apply in_map. }
    assert (Hr : requests (snd e) <> held c).
    { intros Heq. apply Hc. rewrite <- Heq.
      now apply (requests_in_row C t e). }
    rewrite (index_of_tail _ _ _ Hh), (index_of_tail _ _ _ Hr).
    apply -> Nat.succ_lt_mono. now apply IH.
Qed.

Lemma resource_names_incl (s s' : store) :
  incl s s' -> incl (resource_names s) (resource_names s').
Proof.
  intros Hincl x Hx. unfold resource_names in *. apply in_flat_map in Hx.
  destruct Hx as [e [He Hx]]. apply in_flat_map. exists e. auto.
Qed.

Lemma names_apart_del (s : store) k : names_apart s -> names_apart (Dict.del k s).
Proof.
  intros Hap x Hx Hr. apply (Hap x).
  - now apply (DictFacts.keys_del_incl s k).
  - now apply (resource_names_incl _ _ (del_incl s k)).
Qed.

Lemma clean_cycle_after_victim (n : nat) (s : store) v :
  Dict.wf s -> names_apart s -> distinct_held s -> forms_cycle n s ->
  In v (Dict.keys s) ->
  cyclicb (Dict.del v s) = false.
Proof.
  intros Hwf Hap Hdist [_ [first [rest [Hperm [Hl Hclose]]]]] Hv.
  destruct (DictFacts.del_split s v Hwf Hv) as [pre [d [post [Hs [Hdel _]]]]].
  assert (HinL : In (v, d) (first :: rest)).
  { apply (Permutation_in _ (Permutation_sym Hperm)). rewrite Hs.
    apply in_or_app. right. now left. }
  apply in_split in HinL. destruct HinL as [A [B HL]].
  pose proof (linked_closed rest first _ Hl Hclose) as Hrow.
  assert (Hfirst : held first = next_held (A ++ (v, d) :: B) (held (v, d))).
  { rewrite <- HL. reflexivity. }
  change (holds (snd first)) with (held first) in Hrow.
  rewrite Hfirst, HL in Hrow. apply linked_rotate in Hrow.
  assert (Hnd : NoDup (map held (B ++ A) ++ [held (v, d)])).
  { change [held (v, d)] with (map held [(v, d)]). rewrite <- map_app.
    apply (Permutation_NoDup (l := map held s)); [| exact Hdist].
    apply Permutation_map.
    apply (Permutation_trans (Permutation_sym Hperm)). rewrite HL.
    eapply Permutation_trans; [apply Permutation_app_comm |].
    simpl. apply Permutation_cons_append. }
  apply (respects_order_acyclic
           (fun x => index_of x (map held (B ++ A) ++ [held (v, d)]))).
  - now apply DictFacts.wf_del.
  - now apply names_apart_del.
  - intros p e Hpe.
    assert (Hps : In (p, e) s) by now apply (del_incl s v).
    assert (Hpv : p <> v).
    { intros ->. apply (DictFacts.not_in_del s v Hwf).
      eapply DictFacts.in_keys, Hpe. }
    assert (HpL : In (p, e) (A ++ (v, d) :: B)).
    { rewrite <- HL. now apply (Permutation_in _ (Permutation_sym Hperm)). }
    assert (HpC : In (p, e) (B ++ A)).
    { apply in_app_or in HpL. apply in_or_app.
      destruct HpL as [H | [H | H]]; auto.
      inversion H. subst. contradiction. }
    apply (row_positions (B ++ A) (held (v, d)) (p, e) Hrow Hnd HpC).
Qed.

(** X13. A clean cycle is broken by a single call: when the processes of
    the table form a cycle, no resource is held by two processes and no name
    is both a process and a resource, one [resolve] call reports the
    resolution, leaves one process less, and [detect_deadlock] answers
    [False] on the table it leaves. *)
Theorem clean_cycle_resolved_by_one_call (n : nat) (s : store) :
  Dict.wf s ->
  names_apart s ->
  distinct_held s ->
  forms_cycle n s ->
  exists (r : response) (s' : store),
    resolve s = (Ok r, s')
    /\ reports_resolved r = true
    /\ S (List.length s') = n
    /\ fst (detect_deadlock s') = Ok false.
Proof.
  intros Hwf Hap Hdist Hcyc.
  assert (Hc : cyclicb s = true).
  { apply cyclicb_iff. eapply forms_cycle_cyclic, Hcyc. }
  destruct (resolve_cyclic s Hc) as [v [Hv Hrun]].
  pose proof (victim_in_keys _ _ Hv) as Hin.
  exists (resolved_response v (Dict.del v s)), (Dict.del v s).
  split; [exact Hrun |]. split; [reflexivity |]. split.
  - destruct Hcyc as [<- _]. now apply DictFacts.length_del.
  - apply detect_false_cyclicb.
    now apply (clean_cycle_after_victim n s v).
Qed.

Lemma clean_cycle_resolved_by_one_call_witness :
  exists (r : response) (s' : store),
    resolve two_cycle = (Ok r, s')
    /\ reports_resolved r = true
    /\ S (List.length s') = 2
    /\ fst (detect_deadlock s') = Ok false.
Proof.
  apply (clean_cycle_resolved_by_one_call 2 two_cycle).
  - exact two_cycle_wf.
  - intros x Hx Hr. simpl in Hx, Hr.
    destruct Hx as [<- | [<- | []]]; intuition discriminate.
  - unfold distinct_held, two_cycle, held. simpl.
    repeat constructor; simpl; intuition discriminate.
  - exact two_cycle_forms_cycle.
Defined.
